(** * RedisPoolManager: a model of the connection pool and its properties

    The pool of [rpm.js] is a JavaScript class whose methods are [async]:
    a method body runs without interruption up to its next [await], and
    resumes later, when the awaited promise has settled.  The model below
    follows that execution model.  The state of the program is a [World]:
    the pool object ([this]), the client objects it has created (a heap
    indexed by reference), the suspended continuations ([tasks]) and what
    the program has shown to the outside ([out]).  Every uninterrupted run
    of code (a call made by a user of the pool, the resumption of a
    suspended method, a timer, an event emitted by a client handle) is one
    [event], and [step] executes it.  Events may follow each other in any
    order that the suspended tasks allow.

    Two callers of the pool, [safeOperation] and [batchOperations] of
    [examples/advanced-usage.js], are modelled by the calls they make,
    given what their awaits come to. *)

From Stdlib Require Import ZArith Lia.
From stdpp Require Import base tactics option list strings pretty.

Open Scope Z_scope.
Open Scope nat_scope.

(** ** Data *)

(** A reference to a client object: its index in the heap. *)
Abbreviation ref := nat.

(** A JavaScript [Set] of client objects keeps its elements in insertion
    order and holds each at most once. *)
Module JSSet.
Abbreviation t := (list ref).

Definition has (x : ref) (s : t) : bool := bool_decide (x ∈ s).

(** [s.add(x)]: appended when absent, otherwise no change. *)
Definition add (x : ref) (s : t) : t := if has x s then s else s ++ [x].

(** [s.delete(x)] *)
Definition delete (x : ref) (s : t) : t := filter (λ y, y ≠ x) s.

(** [s.size] *)
Definition size (s : t) : nat := length s.

(** [s.values().next().value]: the oldest element, [None] for
    [undefined]. *)
Definition first (s : t) : option ref := head s.
End JSSet.

(** Who awaits the promise of a [createConnection()] call. *)
Inductive awaiter :=
| KInit      (* initializePool, through Promise.all *)
| KAcquire   (* acquireConnection, strategy 2 *)
| KReplace.  (* handleConnectionError, with a .catch handler *)

(** A client object.  [connectionId], [lastUsed] and [isHealthy] are the
    properties the pool adds ([None] while they are [undefined]); [isReady]
    and [isOpen] are the getters of the redis client; [connecting] is
    [Some k] while the [createConnection()] call that made the client is
    suspended at [await client.connect()]. *)
Record Client := mkClient {
  connectionId : option string;
  lastUsed : option nat;
  isHealthy : option bool;
  isReady : bool;
  isOpen : bool;
  connecting : option awaiter
}.

Record Stats := mkStats {
  created : nat;
  destroyed : nat;
  acquired : nat;
  released : nat;
  errors : nat
}.

(** The fields of the pool object.  Two more are left out: the redis
    configuration, which is passed to [createClient] unchanged and read
    nowhere else, and [connectionPromises], a map that is created empty
    and never used. *)
Record Pool := mkPool {
  maxConnections : Z;
  minConnections : Z;
  connectionTimeout : Z;
  retryDelay : Z;
  maxRetries : Z;
  availableConnections : JSSet.t;
  busyConnections : JSSet.t;
  isShuttingDown : bool;
  stats : Stats
}.

(** A suspended continuation.  The index of a task in [tasks] names it. *)
Inductive task :=
| TInit (remaining : nat)   (* initializePool at await Promise.all(initPromises) *)
| TInitRejected             (* the same, one of the promises has rejected *)
| TAcquireResume (c : ref)  (* acquireConnection, createConnection() returned c *)
| TAcquireReject (c : ref)  (* acquireConnection, createConnection() threw *)
| TQuit (c : ref)           (* destroyConnection at await client.quit() *)
| TWait (timedOut : bool)   (* strategy 3: the polling timer, and whether the timeout fired *)
| THealth (pings : list ref)  (* healthCheck at await Promise.allSettled, pings not settled *)
| TShutdown (quits : list nat)  (* shutdown at await Promise.allSettled, the destroys that suspended *)
| TDone.

Inductive acquireError :=
| PoolShuttingDown   (* "Connection pool is shutting down" *)
| CreateFailed       (* "Failed to create new Redis connection: ..." *)
| WaitTimeout.       (* "Timeout waiting for Redis connection" *)

Inductive errorLog :=
| LogInitFailed
| LogConnectionError (c : ref)
| LogCreateFailed (c : ref)
| LogDestroyError (c : ref)
| LogReplacementFailed
| LogHealthCheckFailed (c : ref).

(** What the program shows: the outcome of an [acquireConnection()] call,
    an event emitted by the pool, a line of [console.error].  The lines of
    [console.log] are left out. *)
Inductive obs :=
| AcquireReturned (c : ref)
| AcquireThrew (e : acquireError)
| EmitReady
| EmitError
| ConsoleError (m : errorLog).

Record World := mkWorld {
  this : Pool;
  heap : list Client;
  tasks : list task;
  out : list obs
}.

(** ** Updates of the state *)

Definition with_pool (f : Pool → Pool) (w : World) : World :=
  mkWorld (f (this w)) (heap w) (tasks w) (out w).

Definition with_stats (f : Stats → Stats) (w : World) : World :=
  with_pool (λ p, mkPool (maxConnections p) (minConnections p)
    (connectionTimeout p) (retryDelay p) (maxRetries p)
    (availableConnections p) (busyConnections p) (isShuttingDown p)
    (f (stats p))) w.

Definition with_available (f : JSSet.t → JSSet.t) (w : World) : World :=
  with_pool (λ p, mkPool (maxConnections p) (minConnections p)
    (connectionTimeout p) (retryDelay p) (maxRetries p)
    (f (availableConnections p)) (busyConnections p) (isShuttingDown p)
    (stats p)) w.

Definition with_busy (f : JSSet.t → JSSet.t) (w : World) : World :=
  with_pool (λ p, mkPool (maxConnections p) (minConnections p)
    (connectionTimeout p) (retryDelay p) (maxRetries p)
    (availableConnections p) (f (busyConnections p)) (isShuttingDown p)
    (stats p)) w.

Definition set_shutting_down (w : World) : World :=
  with_pool (λ p, mkPool (maxConnections p) (minConnections p)
    (connectionTimeout p) (retryDelay p) (maxRetries p)
    (availableConnections p) (busyConnections p) true (stats p)) w.

Definition with_client (c : ref) (f : Client → Client) (w : World) : World :=
  mkWorld (this w) (alter f c (heap w)) (tasks w) (out w).

Definition alloc (cl : Client) (w : World) : World :=
  mkWorld (this w) (heap w ++ [cl]) (tasks w) (out w).

Definition spawn (t : task) (w : World) : World :=
  mkWorld (this w) (heap w) (tasks w ++ [t]) (out w).

Definition set_task (i : nat) (t : task) (w : World) : World :=
  mkWorld (this w) (heap w) (<[i:=t]> (tasks w)) (out w).

Definition emit (o : obs) (w : World) : World :=
  mkWorld (this w) (heap w) (tasks w) (out w ++ [o]).

Definition incr_created : World → World :=
  with_stats (λ s, mkStats (S (created s)) (destroyed s) (acquired s) (released s) (errors s)).
Definition incr_destroyed : World → World :=
  with_stats (λ s, mkStats (created s) (S (destroyed s)) (acquired s) (released s) (errors s)).
Definition incr_acquired : World → World :=
  with_stats (λ s, mkStats (created s) (destroyed s) (S (acquired s)) (released s) (errors s)).
Definition incr_released : World → World :=
  with_stats (λ s, mkStats (created s) (destroyed s) (acquired s) (S (released s)) (errors s)).
Definition incr_errors : World → World :=
  with_stats (λ s, mkStats (created s) (destroyed s) (acquired s) (released s) (S (errors s))).

Definition set_lastUsed (now : nat) (cl : Client) : Client :=
  mkClient (connectionId cl) (Some now) (isHealthy cl) (isReady cl) (isOpen cl) (connecting cl).
Definition set_isHealthy (b : bool) (cl : Client) : Client :=
  mkClient (connectionId cl) (lastUsed cl) (Some b) (isReady cl) (isOpen cl) (connecting cl).
Definition set_handle (ready open : bool) (cl : Client) : Client :=
  mkClient (connectionId cl) (lastUsed cl) (isHealthy cl) ready open (connecting cl).
Definition set_connecting (k : option awaiter) (cl : Client) : Client :=
  mkClient (connectionId cl) (lastUsed cl) (isHealthy cl) (isReady cl) (isOpen cl) k.

(** Shorthands for the pool's two sets and counters. *)
Abbreviation available w := (availableConnections (this w)).
Abbreviation busy w := (busyConnections (this w)).
Abbreviation counters w := (stats (this w)).

(** ** Reading a client object

    A reference outside the heap stands for an object the pool did not
    create: every property read from it is [undefined]. *)

(** [client.connectionId] as a condition: [undefined] and the empty string
    are falsy. *)
Definition has_connectionId (c : ref) (h : list Client) : bool :=
  match h !! c with
  | Some cl => match connectionId cl with
               | Some id => negb (bool_decide (id = ""%string))
               | None => false
               end
  | None => false
  end.

(** [client.isHealthy] as a condition. *)
Definition healthy (c : ref) (h : list Client) : bool :=
  match h !! c with
  | Some cl => bool_decide (isHealthy cl = Some true)
  | None => false
  end.

(** [client.isReady] and [client.isOpen] as conditions. *)
Definition ready (c : ref) (h : list Client) : bool :=
  match h !! c with Some cl => isReady cl | None => false end.
Definition open (c : ref) (h : list Client) : bool :=
  match h !! c with Some cl => isOpen cl | None => false end.

(** ** The methods of the pool

    A method that awaits is split at its [await]: the part before it is
    the function named after the method, the part after it is run by the
    event that settles the awaited promise (see [step]). *)

(** The identifier given to a connection.  The source builds it from the
    clock and a random number, [redis_<time>_<random>]; the model takes the
    reference of the client for the varying part.  The pool only ever
    tests the identifier for being present. *)
Definition mkConnectionId (c : ref) : string := "redis_" +:+ pretty c.

(** [getTotalConnections()] *)
Definition getTotalConnections (w : World) : nat :=
  JSSet.size (available w) + JSSet.size (busy w).

(** [getStats()] *)
Record PoolStats := mkPoolStats {
  counts : Stats;
  stat_available : nat;
  stat_busy : nat;
  stat_total : nat
}.

Definition getStats (w : World) : PoolStats :=
  mkPoolStats (counters w) (JSSet.size (available w)) (JSSet.size (busy w))
    (getTotalConnections w).

(** [createConnection()] up to [await client.connect()]: the client is
    made, the listeners are registered, [connect()] is called.  The new
    client is the last of the heap. *)
Definition createConnection (k : awaiter) (w : World) : World :=
  alloc (mkClient None None None false true (Some k)) w.

(** [createConnection()] after [connect()] has fulfilled, up to
    [return client]. *)
Definition createConnection_connected (c : ref) (now : nat) (w : World) : World :=
  let w := with_client c (λ cl, mkClient (Some (mkConnectionId c)) (Some now)
                                  (Some true) (isReady cl) (isOpen cl) (connecting cl)) w in
  let w := with_available (JSSet.add c) w in
  incr_created w.

(** [createConnection()] after [connect()] has rejected: the error is
    logged and thrown again. *)
Definition createConnection_failed (c : ref) (w : World) : World :=
  emit (ConsoleError (LogCreateFailed c)) w.

(** The redis client, as far as the pool reads it: [connect()] settles
    once for a client, and fulfils with the handle open and ready;
    [quit()] fulfils with the handle closed.  [HandleState] below lets a
    handle change at any other time as well. *)
Definition connect_settled (rdy opn : bool) (c : ref) (w : World) : World :=
  with_client c (λ cl, set_handle rdy opn (set_connecting None cl)) w.

Definition quit_fulfilled (c : ref) (w : World) : World :=
  with_client c (set_handle false false) w.

(** [initializePool()] up to [await Promise.all(initPromises)]. *)
Definition initializePool (w : World) : World :=
  let n := Z.to_nat (minConnections (this w)) in
  spawn (TInit n) (Nat.iter n (createConnection KInit) w).

(** The options object given to the constructor; [None] is a property
    that is absent.  Numbers are taken to be integers. *)
Record Options := mkOptions {
  opt_maxConnections : option Z;
  opt_minConnections : option Z;
  opt_connectionTimeout : option Z;
  opt_retryDelay : option Z;
  opt_maxRetries : option Z
}.

(** [v || d] for a number or [undefined] on the left: [undefined] and [0]
    are falsy. *)
Definition js_or (v : option Z) (d : Z) : Z :=
  match v with
  | Some n => if (n =? 0)%Z then d else n
  | None => d
  end.

(** [new RedisPoolManager(config, options)] *)
Definition constructor (options : Options) : World :=
  let p := mkPool (js_or (opt_maxConnections options) 10)
                  (js_or (opt_minConnections options) 2)
                  (js_or (opt_connectionTimeout options) 30000)
                  (js_or (opt_retryDelay options) 1000)
                  (js_or (opt_maxRetries options) 5)
                  [] [] false (mkStats 0 0 0 0 0) in
  initializePool (mkWorld p [] [] []).

(** The move of a client from [availableConnections] to
    [busyConnections]. *)
Definition take (c : ref) (w : World) : World :=
  with_busy (JSSet.add c) (with_available (JSSet.delete c) w).

(** [acquireConnection()] up to its first [await], or to the creation of
    the promise of strategy 3.  In strategy 3 [checkForConnection()] is
    called at once and finds the set still empty, so it only arms its
    timer. *)
Definition acquireConnection (now : nat) (w : World) : World :=
  if isShuttingDown (this w) then emit (AcquireThrew PoolShuttingDown) w
  else
    let w := incr_acquired w in
    match JSSet.first (available w) with
    | Some c =>
        emit (AcquireReturned c) (with_client c (set_lastUsed now) (take c w))
    | None =>
        if (Z.of_nat (getTotalConnections w) <? maxConnections (this w))%Z
        then createConnection KAcquire w
        else spawn (TWait false) w
    end.

(** [destroyConnection(client)] up to [await client.quit()], or to its end
    when the client is not open.  The second component is the task that
    waits for [quit()], if any. *)
Definition destroyConnection (c : ref) (w : World) : World * option nat :=
  let w := with_available (JSSet.delete c) w in
  let w := with_busy (JSSet.delete c) w in
  if open c (heap w) then (spawn (TQuit c) w, Some (length (tasks w)))
  else (incr_destroyed w, None).

(** [releaseConnection(client)]; [None] is [null] or [undefined].  The
    promise of [destroyConnection] is dropped. *)
Definition releaseConnection (client : option ref) (w : World) : World :=
  match client with
  | None => w
  | Some c =>
      if negb (has_connectionId c (heap w)) then w
      else
        let w := incr_released w in
        if JSSet.has c (busy w) then
          let w := with_busy (JSSet.delete c) w in
          if healthy c (heap w) && ready c (heap w) then with_available (JSSet.add c) w
          else (destroyConnection c w).1
        else w
  end.

(** [removeConnection(client)] *)
Definition removeConnection (c : ref) (w : World) : World :=
  with_busy (JSSet.delete c) (with_available (JSSet.delete c) w).

(** [handleConnectionError(client, error)]; the promise of the replacement
    is left to its [.catch] handler. *)
Definition handleConnectionError (c : ref) (w : World) : World :=
  let w := with_client c (set_isHealthy false) w in
  let w := if JSSet.has c (busy w) then with_busy (JSSet.delete c) w else w in
  let w := with_available (JSSet.delete c) w in
  if (Z.of_nat (getTotalConnections w) <? minConnections (this w))%Z
  then createConnection KReplace w
  else w.

(** The listener of a client's ['error'] event. *)
Definition on_error (c : ref) (w : World) : World :=
  let w := emit (ConsoleError (LogConnectionError c)) w in
  let w := incr_errors w in
  handleConnectionError c w.

(** [healthCheck()] up to [await Promise.allSettled(promises)]: one
    [ping()] for each available client. *)
Definition healthCheck (w : World) : World :=
  spawn (THealth (available w)) w.

(** The [.catch] handler of a ping. *)
Definition ping_failed (c : ref) (w : World) : World :=
  let w := emit (ConsoleError (LogHealthCheckFailed c)) w in
  with_client c (set_isHealthy false) w.

(** [healthCheck()] after the pings have settled: the loop over a copy of
    the available set, [evict] being its body. *)
Definition evict (w : World) (c : ref) : World :=
  if healthy c (heap w) then w else (destroyConnection c w).1.

Definition healthCheck_sweep (w : World) : World :=
  foldl evict w (available w).

(** [shutdown()] up to [await Promise.allSettled(shutdownPromises)];
    [destroy_next] is one call of the [map] over [allConnections], which
    keeps the promises of the destroys that suspended. *)
Definition destroy_next (acc : World * list nat) (c : ref) : World * list nat :=
  ((destroyConnection c acc.1).1, acc.2 ++ option_list (destroyConnection c acc.1).2).

Definition destroy_all (cs : list ref) (w : World) : World * list nat :=
  foldl destroy_next (w, []) cs.

Definition shutdown (w : World) : World :=
  let w := set_shutting_down w in
  let allConnections := available w ++ busy w in
  let r := destroy_all allConnections w in
  spawn (TShutdown r.2) r.1.

(** ** Events and steps *)

Inductive event :=
(* calls made by the users of the pool *)
| Acquire (now : nat)
| Release (client : option ref)
| HealthCheck
| Shutdown
(* promises that settle and timers that fire *)
| ConnectOk (c : ref) (now : nat)
| ConnectFail (c : ref)
| InitSettle
| ReadyListenerThrows
| AcquireSettle (i : nat)
| QuitOk (i : nat)
| QuitFail (i : nat)
| PingOk (i : nat) (c : ref)
| PingFail (i : nat) (c : ref)
| HealthSettle (i : nat)
| ShutdownSettle (i : nat)
| Poll (i : nat) (now : nat)
| Timeout (i : nat)
(* what a client handle does on its own *)
| ClientError (c : ref)
| ClientEnd (c : ref)
| HandleState (c : ref) (ready open : bool).

(** The awaiter of a [createConnection()] promise that fulfilled. *)
Definition created_for (k : awaiter) (c : ref) (w : World) : World :=
  match k with
  | KInit => match tasks w !! 0 with
             | Some (TInit (S n)) => set_task 0 (TInit n) w
             | _ => w
             end
  | KAcquire => spawn (TAcquireResume c) w
  | KReplace => w
  end.

(** The awaiter of a [createConnection()] promise that rejected. *)
Definition create_failed_for (k : awaiter) (c : ref) (w : World) : World :=
  match k with
  | KInit => match tasks w !! 0 with
             | Some (TInit _) => set_task 0 TInitRejected w
             | _ => w
             end
  | KAcquire => spawn (TAcquireReject c) w
  | KReplace => emit (ConsoleError LogReplacementFailed) w
  end.

(** Whether the tasks [qs] have all run to their end. *)
Definition is_done (t : option task) : bool :=
  match t with Some TDone => true | _ => false end.

Definition all_done (qs : list nat) (w : World) : bool :=
  forallb (λ q, is_done (tasks w !! q)) qs.

(** [step e w] runs event [e] in [w]; [None] when [e] cannot happen in
    [w] (there is no such suspended task, no such client).

    [initializePool()] resumes in one of two ways when every initial
    creation has fulfilled.  [this.emit('ready')] stands inside the [try]
    block and runs the listeners of ['ready'] before it returns: when
    one of them throws ([ReadyListenerThrows]), the [catch] block logs
    and emits ['error'] as well; otherwise ([InitSettle]) ['ready'] is
    all that is emitted. *)
Definition step (e : event) (w : World) : option World :=
  match e with
  | Acquire now => Some (acquireConnection now w)
  | Release client => Some (releaseConnection client w)
  | HealthCheck => Some (healthCheck w)
  | Shutdown => Some (shutdown w)
  | ConnectOk c now =>
      cl ← heap w !! c;
      k ← connecting cl;
      Some (created_for k c (createConnection_connected c now (connect_settled true true c w)))
  | ConnectFail c =>
      cl ← heap w !! c;
      k ← connecting cl;
      Some (create_failed_for k c (createConnection_failed c (connect_settled false false c w)))
  | InitSettle =>
      match tasks w !! 0 with
      | Some (TInit 0) => Some (emit EmitReady (set_task 0 TDone w))
      | Some TInitRejected =>
          Some (emit EmitError (emit (ConsoleError LogInitFailed) (set_task 0 TDone w)))
      | _ => None
      end
  | ReadyListenerThrows =>
      match tasks w !! 0 with
      | Some (TInit 0) =>
          Some (emit EmitError (emit (ConsoleError LogInitFailed)
                  (emit EmitReady (set_task 0 TDone w))))
      | _ => None
      end
  | AcquireSettle i =>
      match tasks w !! i with
      | Some (TAcquireResume c) =>
          Some (emit (AcquireReturned c) (take c (set_task i TDone w)))
      | Some (TAcquireReject c) =>
          Some (emit (AcquireThrew CreateFailed) (set_task i TDone w))
      | _ => None
      end
  | QuitOk i =>
      match tasks w !! i with
      | Some (TQuit c) =>
          Some (incr_destroyed (quit_fulfilled c (set_task i TDone w)))
      | _ => None
      end
  | QuitFail i =>
      match tasks w !! i with
      | Some (TQuit c) =>
          Some (emit (ConsoleError (LogDestroyError c)) (set_task i TDone w))
      | _ => None
      end
  | PingOk i c =>
      match tasks w !! i with
      | Some (THealth ps) =>
          if bool_decide (c ∈ ps)
          then Some (set_task i (THealth (JSSet.delete c ps)) w)
          else None
      | _ => None
      end
  | PingFail i c =>
      match tasks w !! i with
      | Some (THealth ps) =>
          if bool_decide (c ∈ ps)
          then Some (ping_failed c (set_task i (THealth (JSSet.delete c ps)) w))
          else None
      | _ => None
      end
  | HealthSettle i =>
      match tasks w !! i with
      | Some (THealth []) => Some (healthCheck_sweep (set_task i TDone w))
      | _ => None
      end
  | ShutdownSettle i =>
      match tasks w !! i with
      | Some (TShutdown qs) =>
          if all_done qs w then Some (set_task i TDone w) else None
      | _ => None
      end
  | Poll i now =>
      match tasks w !! i with
      | Some (TWait timedOut) =>
          match JSSet.first (available w) with
          | Some c =>
              let w := with_client c (set_lastUsed now) (take c (set_task i TDone w)) in
              Some (if timedOut then w else emit (AcquireReturned c) w)
          | None => Some w
          end
      | _ => None
      end
  | Timeout i =>
      match tasks w !! i with
      | Some (TWait false) =>
          Some (emit (AcquireThrew WaitTimeout) (set_task i (TWait true) w))
      | _ => None
      end
  | ClientError c =>
      if bool_decide (c < length (heap w)) then Some (on_error c w) else None
  | ClientEnd c =>
      if bool_decide (c < length (heap w)) then Some (removeConnection c w) else None
  | HandleState c r o =>
      if bool_decide (c < length (heap w))
      then Some (with_client c (set_handle r o) w) else None
  end.

(** A run of events, one after the other. *)
Fixpoint run (es : list event) (w : World) : option World :=
  match es with
  | [] => Some w
  | e :: es => w' ← step e w; run es w'
  end.

(** The states the program can be in. *)
Definition reachable (w : World) : Prop :=
  ∃ options es, run es (constructor options) = Some w.

(** A client whose [connect()] has settled. *)
Definition settled (c : ref) (w : World) : Prop :=
  ∃ cl, heap w !! c = Some cl ∧ connecting cl = None.

(** A client whose creation has completed: [createConnection()] has set
    its properties. *)
Definition registered (c : ref) (w : World) : Prop :=
  ∃ cl, heap w !! c = Some cl ∧ connecting cl = None ∧
        connectionId cl = Some (mkConnectionId c).

(** The clients the pool refers to have completed their creation. *)
Definition tracked_registered (w : World) : Prop :=
  (∀ c, c ∈ available w ∨ c ∈ busy w → registered c w) ∧
  (∀ i c, tasks w !! i = Some (TAcquireResume c) → registered c w) ∧
  (∀ i ps c, tasks w !! i = Some (THealth ps) → c ∈ ps → registered c w).

(** The number of connections handed to callers of
    [acquireConnection()]. *)
Definition is_returned (o : obs) : bool :=
  match o with AcquireReturned _ => true | _ => false end.

Definition handed_out (w : World) : nat :=
  length (filter (λ o, is_returned o = true) (out w)).

(** Whether an event is a call of [acquireConnection()], and whether it is
    the fulfilment of a [connect()]. *)
Definition is_acquire (e : event) : bool :=
  match e with Acquire _ => true | _ => false end.

Definition is_connect_ok (e : event) : bool :=
  match e with ConnectOk _ _ => true | _ => false end.

(** What a step may do to a client whose [connect()] has settled: the
    client stays settled, keeps its identifier, and is not made healthy
    again. *)
Definition stable (cl cl' : Client) : Prop :=
  connecting cl = None →
  connecting cl' = None ∧ connectionId cl' = connectionId cl ∧
  (isHealthy cl' = Some true → isHealthy cl = Some true).

(** The lists that stand for the two sets hold each client once, and no
    client is in both. *)
Definition sets_NoDup (w : World) : Prop :=
  NoDup (available w) ∧ NoDup (busy w).

Definition sets_disjoint (w : World) : Prop :=
  ∀ c, c ∈ available w → c ∉ busy w.

(** No [acquireConnection()] of strategy 2 is about to resume with a
    connection. *)
Definition no_grow_in_flight (w : World) : Prop :=
  ∀ i c, tasks w !! i ≠ Some (TAcquireResume c).

(** A client whose [connect()] has settled and that is not healthy. *)
Definition retired (c : ref) (w : World) : Prop :=
  ∃ cl, heap w !! c = Some cl ∧ connecting cl = None ∧ isHealthy cl ≠ Some true.

(** The total after the removal of [c] from both sets. *)
Definition total_without (c : ref) (w : World) : nat :=
  JSSet.size (JSSet.delete c (available w)) + JSSet.size (JSSet.delete c (busy w)).

(** ** What the pool has let go of, counts and shows *)

(** A client the pool has let go of: its [connect()] has settled, it is
    in neither set, and no [acquireConnection()] is about to resume with
    it. *)
Definition let_go (c : ref) (w : World) : Prop :=
  settled c w ∧ (c ∉ available w) ∧ (c ∉ busy w) ∧
  ∀ i, tasks w !! i ≠ Some (TAcquireResume c).

(** The order of the counters: none of the five is smaller on the
    right. *)
Definition stats_le (s s' : Stats) : Prop :=
  created s ≤ created s' ∧ destroyed s ≤ destroyed s' ∧
  acquired s ≤ acquired s' ∧ released s ≤ released s' ∧ errors s ≤ errors s'.

(** How many times the pool has emitted ['ready'], and ['error']. *)
Definition is_emit_ready (o : obs) : bool :=
  match o with EmitReady => true | _ => false end.

Definition is_emit_error (o : obs) : bool :=
  match o with EmitError => true | _ => false end.

Definition emitted (p : obs → bool) (w : World) : nat :=
  length (filter (λ o, p o = true) (out w)).

(** The events that resume [initializePool()]. *)
Definition is_init_settle (e : event) : bool :=
  match e with InitSettle | ReadyListenerThrows => true | _ => false end.

(** Whether [createConnection()] has given the client its identifier, and
    how many clients have one. *)
Definition identified (cl : Client) : bool :=
  match connectionId cl with Some _ => true | None => false end.

Definition identified_count (w : World) : nat :=
  length (filter (λ cl, identified cl = true) (heap w)).

(** Whether an event is the ['error'] event of a client, and the number
    of the events of a run that satisfy a test. *)
Definition is_client_error (e : event) : bool :=
  match e with ClientError _ => true | _ => false end.

Definition count_events (p : event → bool) (es : list event) : nat :=
  length (filter (λ e, p e = true) es).

(** ** The initialization, as the events see it *)

(** Whether the promise of a client's creation is one of those that
    [initializePool()] awaits, and how many of these are pending. *)
Definition awaits_init (cl : Client) : bool :=
  match connecting cl with Some KInit => true | _ => false end.

Definition pending_init (w : World) : nat :=
  length (filter (λ cl, awaits_init cl = true) (heap w)).

(** Whether an event settles such a promise. *)
Definition init_event (e : event) (w : World) : bool :=
  match e with
  | ConnectOk c _ | ConnectFail c =>
      match heap w !! c with Some cl => awaits_init cl | None => false end
  | _ => false
  end.

(** What an event makes of the task of [initializePool()]. *)
Definition init_next (e : event) (w : World) (t : task) : task :=
  match e with
  | InitSettle | ReadyListenerThrows => TDone
  | ConnectOk _ _ =>
      if init_event e w then match t with TInit (S n) => TInit n | _ => t end else t
  | ConnectFail _ =>
      if init_event e w then match t with TInit _ => TInitRejected | _ => t end else t
  | _ => t
  end.

Definition init_kind (t : task) : bool :=
  match t with TInit _ | TInitRejected | TDone => true | _ => false end.

(** The state of the initialization: the counter of [Promise.all] is the
    number of pending initial creations, nothing is emitted before it
    settles, each of ['ready'] and ['error'] is emitted once at most, and
    ['ready'] is emitted with none pending and at least [minConnections]
    connections created. *)
Definition init_inv (w : World) : Prop :=
  match tasks w !! 0 with
  | Some (TInit n) =>
      pending_init w = n ∧ emitted is_emit_ready w = 0 ∧ emitted is_emit_error w = 0 ∧
      Z.to_nat (minConnections (this w)) ≤ created (counters w) + n
  | Some TInitRejected => emitted is_emit_ready w = 0 ∧ emitted is_emit_error w = 0
  | Some TDone =>
      emitted is_emit_ready w ≤ 1 ∧ emitted is_emit_error w ≤ 1 ∧
      (EmitReady ∈ out w →
         pending_init w = 0 ∧
         Z.to_nat (minConnections (this w)) ≤ created (counters w))
  | _ => False
  end.

(** The pool after an initial creation has failed: ['ready'] has not been
    emitted, and [initializePool()] has rejected or ended. *)
Definition never_ready (w : World) : Prop :=
  (EmitReady ∉ out w) ∧
  (tasks w !! 0 = Some TInitRejected ∨ tasks w !! 0 = Some TDone).

(** The pool while [initializePool()] waits: the clients of [done] have
    connected, in this order, the other initial clients have not settled
    yet, and nothing else has happened. *)
Definition initializing (n : nat) (done : list ref) (w : World) : Prop :=
  length (heap w) = n ∧
  (∀ c, c < n → c ∉ done →
     heap w !! c = Some (mkClient None None None false true (Some KInit))) ∧
  tasks w = [TInit (n - length done)] ∧
  available w = done ∧ busy w = [] ∧ out w = [] ∧
  created (counters w) = length done.

(** The fulfilments of [connect()] for the clients [cs], at the times
    [now]. *)
Definition connects (now : ref → nat) (cs : list ref) : list event :=
  (λ c, ConnectOk c (now c)) <$> cs.

(** The pool with other values for [retryDelay] and [maxRetries], and
    the options with other values for them. *)
Definition set_retry (rd mr : Z) (w : World) : World :=
  with_pool (λ p, mkPool (maxConnections p) (minConnections p) (connectionTimeout p)
                    rd mr (availableConnections p) (busyConnections p)
                    (isShuttingDown p) (stats p)) w.

Definition with_retry_options (rd mr : option Z) (o : Options) : Options :=
  mkOptions (opt_maxConnections o) (opt_minConnections o) (opt_connectionTimeout o)
    rd mr.

(** ** A caller of the pool: [RedisService] of the advanced example

    [safeOperation] and [batchOperations] await the pool and the
    operations they are given.  What these awaits come to is given to the
    model; it returns the calls the method makes, in order, and how its
    promise settles. *)

(** What one turn of the loop of [safeOperation] meets:
    [acquireConnection()] rejects, or it gives a client and the operation
    rejects, or the operation fulfils.  Of the value of a rejection the
    method reads one thing, [error.message] in its [catch] block;
    [message_throws] says that this reading throws, as it does for
    [null] and [undefined]. *)
Inductive turn (R : Type) :=
| AcquireRejects (message_throws : bool)
| OperationRejects (client : ref) (message_throws : bool)
| OperationFulfils (client : ref) (result : R).
Arguments AcquireRejects {R} message_throws.
Arguments OperationRejects {R} client message_throws.
Arguments OperationFulfils {R} client result.

Inductive call :=
| CallAcquire
| CallOperation (client : ref)
| CallRelease (client : ref)
| CallConsoleError (attempt : nat)
| CallSleep (ms : nat).

(** How [batchOperations] ends: it returns, it throws the error of its
    [n]-th failure, or it is still waiting. *)
Inductive settlement (A : Type) :=
| Returns (a : A)
| Throws (n : nat)
| Awaits.
Arguments Returns {A} a.
Arguments Throws {A} n.
Arguments Awaits {A}.

(** How [safeOperation] ends: it returns, it throws the error of its
    [n]-th failed turn again, its [catch] block throws a [TypeError] at
    the [n]-th failed turn, or it is still waiting. *)
Inductive safe_settlement (R : Type) :=
| SafeReturns (result : option R)
| SafeThrows (n : nat)
| SafeTypeError (n : nat)
| SafeAwaits.
Arguments SafeReturns {R} result.
Arguments SafeThrows {R} n.
Arguments SafeTypeError {R} n.
Arguments SafeAwaits {R}.

(** The client of a turn, for the [finally] block, and whether the
    [catch] block of the turn throws on [error.message]. *)
Definition client_of {R} (a : turn R) : option ref :=
  match a with
  | AcquireRejects _ => None
  | OperationRejects c _ | OperationFulfils c _ => Some c
  end.

Definition message_throws_in {R} (a : turn R) : bool :=
  match a with
  | AcquireRejects b | OperationRejects _ b => b
  | OperationFulfils _ _ => false
  end.

(** The calls of the [try] block and of the [finally] block. *)
Definition try_calls (client : option ref) : list call :=
  CallAcquire :: match client with Some c => [CallOperation c] | None => [] end.

Definition finally_calls (client : option ref) : list call :=
  match client with Some c => [CallRelease c] | None => [] end.

(** [safeOperation(operation, retries)] from [attempt] on; [None] as the
    result is [undefined].  The [catch] block counts the attempt, then
    evaluates [error.message] for its log line, then throws the error
    again or sleeps; the [finally] block, which releases the client,
    comes after all of that. *)
Fixpoint safeOperation_from {R} (retries : Z) (attempt : nat)
    (answers : list (turn R)) : list call * safe_settlement R :=
  if (Z.of_nat attempt <? retries)%Z then
    match answers with
    | [] => ([CallAcquire], SafeAwaits)
    | OperationFulfils c r :: _ =>
        (try_calls (Some c) ++ finally_calls (Some c), SafeReturns (Some r))
    | a :: answers =>
        let attempt := S attempt in
        if message_throws_in a then
          (try_calls (client_of a) ++ finally_calls (client_of a),
           SafeTypeError attempt)
        else if (retries <=? Z.of_nat attempt)%Z then
          (try_calls (client_of a) ++ [CallConsoleError attempt] ++
             finally_calls (client_of a),
           SafeThrows attempt)
        else
          let rest := safeOperation_from retries attempt answers in
          (try_calls (client_of a) ++
             [CallConsoleError attempt; CallSleep (1000 * attempt)] ++
             finally_calls (client_of a) ++ rest.1,
           rest.2)
    end
  else ([], SafeReturns None).

(** [retries = 3] is the default of the parameter. *)
Definition safeOperation {R} (retries : option Z) (answers : list (turn R)) :
    list call * safe_settlement R :=
  safeOperation_from (default 3%Z retries) 0 answers.

(** [batchOperations(operations)]: an operation is given by what its
    call comes to, [None] when it rejects.  [batch_loop] is the loop,
    [results] the array filled so far; [acquired] is [None] when
    [acquireConnection()] rejects, which happens before the [try]. *)
Fixpoint batch_loop {R} (client : ref) (operations : list (option R))
    (results : list R) : list call * settlement (list R) :=
  match operations with
  | [] => ([], Returns results)
  | Some r :: operations =>
      let rest := batch_loop client operations (results ++ [r]) in
      (CallOperation client :: rest.1, rest.2)
  | None :: _ => ([CallOperation client], Throws (S (length results)))
  end.

Definition batchOperations {R} (acquired : option ref) (operations : list (option R)) :
    list call * settlement (list R) :=
  match acquired with
  | None => ([CallAcquire], Throws 0)
  | Some client =>
      let r := batch_loop client operations [] in
      (CallAcquire :: r.1 ++ [CallRelease client], r.2)
  end.

(** The clients a trace gives to operations and the clients it releases,
    and the number of its calls of [acquireConnection()]. *)
Definition used (calls : list call) : list ref :=
  omap (λ c, match c with CallOperation x => Some x | _ => None end) calls.

Definition released_clients (calls : list call) : list ref :=
  omap (λ c, match c with CallRelease x => Some x | _ => None end) calls.

Definition is_acquire_call (c : call) : bool :=
  match c with CallAcquire => true | _ => false end.

Definition acquisitions (calls : list call) : nat :=
  length (filter (λ c, is_acquire_call c = true) calls).

(** ** A pool to run

    The pool of the examples: [maxConnections = 3], [minConnections = 2],
    the other options left out.  [started] is its start: the two initial
    connections are made (clients 0 and 1) and ['ready'] is emitted.
    [world_after es] is the state after the events [es]. *)
Definition options_3_2 : Options :=
  mkOptions (Some 3%Z) (Some 2%Z) None None None.

Definition started : list event := [ConnectOk 0 1; ConnectOk 1 1; InitSettle].

Definition world_after (es : list event) : World :=
  default (constructor options_3_2) (run es (constructor options_3_2)).

Arguments shutdown : simpl never.
Arguments healthCheck_sweep : simpl never.

(** ** Facts about the sets *)

Module JSSetFacts.
Import JSSet.

Lemma has_true x s : has x s = true ↔ x ∈ s.
Proof. unfold has. apply bool_decide_eq_true. Qed.

Lemma has_false x s : has x s = false ↔ x ∉ s.
Proof. unfold has. apply bool_decide_eq_false. Qed.

Lemma in_add y x s : y ∈ add x s ↔ y = x ∨ y ∈ s.
Proof.
  unfold add. destruct (has x s) eqn:E.
  - apply has_true in E. split; [auto | intros [-> | ?]; auto].
  - rewrite elem_of_app, list_elem_of_singleton. tauto.
Qed.

Lemma in_delete y x s : y ∈ delete x s ↔ y ≠ x ∧ y ∈ s.
Proof. unfold delete. by rewrite list_elem_of_filter. Qed.

Lemma not_in_delete x s : x ∉ delete x s.
Proof. rewrite in_delete. tauto. Qed.

Lemma delete_absent x s : x ∉ s → delete x s = s.
Proof.
  unfold delete. induction s as [|y s IH]; [done|].
  rewrite not_elem_of_cons. intros [Hne Hs].
  rewrite filter_cons. case_decide; [by rewrite IH | congruence].
Qed.

Lemma delete_idemp x s : delete x (delete x s) = delete x s.
Proof. apply delete_absent, not_in_delete. Qed.

Lemma delete_nil x : delete x [] = [].
Proof. done. Qed.

Lemma add_present x s : x ∈ s → add x s = s.
Proof. intros H. unfold add. apply has_true in H. by rewrite H. Qed.

Lemma size_add_le x s : size (add x s) ≤ S (size s).
Proof.
  unfold add, size. destruct (has x s); [lia|].
  rewrite length_app. simpl. lia.
Qed.

Lemma size_delete_le x s : size (delete x s) ≤ size s.
Proof. unfold delete, size. apply length_filter. Qed.

Lemma NoDup_add x s : NoDup s → NoDup (add x s).
Proof.
  intros H. unfold add. destruct (has x s) eqn:E; [done|].
  apply has_false in E. apply NoDup_app. split_and!; [done| |apply NoDup_singleton].
  intros y Hy ->%list_elem_of_singleton. done.
Qed.

Lemma NoDup_delete x s : NoDup s → NoDup (delete x s).
Proof. apply NoDup_filter. Qed.

Lemma first_elem_of s c : first s = Some c → c ∈ s.
Proof. destruct s; simpl; [done|]. intros [= ->]. left. Qed.

Lemma first_None s : first s = None ↔ s = [].
Proof. destruct s; simpl; split; done. Qed.
End JSSetFacts.
Import JSSetFacts.

(** ** How the methods change the state *)

Ltac unfold_world :=
  unfold take, removeConnection, createConnection_connected,
    createConnection_failed, connect_settled, quit_fulfilled,
    createConnection, ping_failed, healthCheck,
    incr_created, incr_destroyed, incr_acquired, incr_released, incr_errors,
    with_stats, with_available, with_busy, set_shutting_down, with_pool,
    with_client, alloc, spawn, set_task, emit,
    getTotalConnections in *;
  simpl in *.

Section DestroyFacts.
Variables (c : ref) (w : World).

Lemma destroy_available :
  available (destroyConnection c w).1 = JSSet.delete c (available w).
Proof. unfold destroyConnection. case_match; reflexivity. Qed.

Lemma destroy_busy :
  busy (destroyConnection c w).1 = JSSet.delete c (busy w).
Proof. unfold destroyConnection. case_match; reflexivity. Qed.

Lemma destroy_heap : heap (destroyConnection c w).1 = heap w.
Proof. unfold destroyConnection. case_match; reflexivity. Qed.

Lemma destroy_out : out (destroyConnection c w).1 = out w.
Proof. unfold destroyConnection. case_match; reflexivity. Qed.

Lemma destroy_isShuttingDown :
  isShuttingDown (this (destroyConnection c w).1) = isShuttingDown (this w).
Proof. unfold destroyConnection. case_match; reflexivity. Qed.

Lemma destroy_limits :
  maxConnections (this (destroyConnection c w).1) = maxConnections (this w) ∧
  minConnections (this (destroyConnection c w).1) = minConnections (this w).
Proof. unfold destroyConnection. case_match; done. Qed.

Lemma destroy_open_eq :
  open c (heap w) = true →
  destroyConnection c w =
    (spawn (TQuit c) (with_busy (JSSet.delete c) (with_available (JSSet.delete c) w)),
     Some (length (tasks w))).
Proof. unfold destroyConnection. simpl. by intros ->. Qed.

Lemma destroy_closed_eq :
  open c (heap w) = false →
  destroyConnection c w =
    (incr_destroyed (with_busy (JSSet.delete c) (with_available (JSSet.delete c) w)),
     None).
Proof. unfold destroyConnection. simpl. by intros ->. Qed.

Lemma destroy_tasks :
  tasks (destroyConnection c w).1 =
    if open c (heap w) then tasks w ++ [TQuit c] else tasks w.
Proof.
  destruct (open c (heap w)) eqn:E.
  - by rewrite destroy_open_eq.
  - by rewrite destroy_closed_eq.
Qed.

Lemma destroy_counters :
  counters (destroyConnection c w).1 =
    if open c (heap w) then counters w
    else mkStats (created (counters w)) (S (destroyed (counters w)))
           (acquired (counters w)) (released (counters w)) (errors (counters w)).
Proof.
  destruct (open c (heap w)) eqn:E.
  - by rewrite destroy_open_eq.
  - by rewrite destroy_closed_eq.
Qed.
End DestroyFacts.

Lemma iter_create_this k n w : this (Nat.iter n (createConnection k) w) = this w.
Proof. induction n as [|n IH]; [done|]. simpl. exact IH. Qed.

Lemma iter_create_tasks k n w : tasks (Nat.iter n (createConnection k) w) = tasks w.
Proof. induction n as [|n IH]; [done|]. simpl. exact IH. Qed.

Lemma iter_create_out k n w : out (Nat.iter n (createConnection k) w) = out w.
Proof. induction n as [|n IH]; [done|]. simpl. exact IH. Qed.

Lemma iter_create_heap k n w :
  heap (Nat.iter n (createConnection k) w) =
    heap w ++ replicate n (mkClient None None None false true (Some k)).
Proof.
  induction n as [|n IH].
  - simpl. by rewrite app_nil_r.
  - rewrite replicate_S_end, app_assoc, <- IH. reflexivity.
Qed.

Lemma constructor_this options :
  this (constructor options) =
    mkPool (js_or (opt_maxConnections options) 10)
           (js_or (opt_minConnections options) 2)
           (js_or (opt_connectionTimeout options) 30000)
           (js_or (opt_retryDelay options) 1000)
           (js_or (opt_maxRetries options) 5)
           [] [] false (mkStats 0 0 0 0 0).
Proof. unfold constructor, initializePool. simpl. by rewrite iter_create_this. Qed.

(** *** The loops over [destroyConnection] *)


Section SweepFacts.
Implicit Types (l : list ref) (w : World).

Lemma sweep_fold_heap l w : heap (foldl evict w l) = heap w.
Proof.
  revert w. induction l as [|c l IH]; intros w; simpl; [done|].
  rewrite IH. unfold evict. case_match; [done|]. apply destroy_heap.
Qed.

Lemma sweep_fold_out l w : out (foldl evict w l) = out w.
Proof.
  revert w. induction l as [|c l IH]; intros w; simpl; [done|].
  rewrite IH. unfold evict. case_match; [done|]. apply destroy_out.
Qed.

Lemma sweep_fold_available l w c :
  c ∈ available (foldl evict w l) ↔
  c ∈ available w ∧ (c ∈ l → healthy c (heap w) = true).
Proof.
  revert w. induction l as [|d l IH]; intros w; simpl.
  - split; [intros H; split; [done|] | tauto]. by intros ?%elem_of_nil.
  - rewrite IH. unfold evict. destruct (healthy d (heap w)) eqn:Hd.
    + rewrite elem_of_cons. split; intros [? H]; (split; [done|]); [intros [->|?]; auto | auto].
    + rewrite destroy_available, in_delete, elem_of_cons, destroy_heap.
      split.
      * intros [[? ?] ?]. split; [done|]. intros [->|?]; [done|auto].
      * intros [? H]. split_and!; [|done|auto]. intros ->. rewrite H in Hd; [done|auto].
Qed.

Lemma sweep_fold_busy l w c :
  c ∈ busy (foldl evict w l) → c ∈ busy w.
Proof.
  revert w. induction l as [|d l IH]; intros w; simpl; [done|].
  intros H%IH. unfold evict in H. case_match; [done|].
  rewrite destroy_busy, in_delete in H. tauto.
Qed.

Lemma sweep_fold_flags l w :
  isShuttingDown (this (foldl evict w l)) = isShuttingDown (this w) ∧
  maxConnections (this (foldl evict w l)) = maxConnections (this w) ∧
  minConnections (this (foldl evict w l)) = minConnections (this w).
Proof.
  revert w. induction l as [|d l IH]; intros w; simpl; [done|].
  destruct (IH (evict w d)) as (-> & -> & ->). unfold evict.
  case_match; [done|].
  rewrite destroy_isShuttingDown. by destruct (destroy_limits d w) as [-> ->].
Qed.

Lemma evict_heap w c : heap (evict w c) = heap w.
Proof. unfold evict. case_match; [done|apply destroy_heap]. Qed.

Lemma evict_tasks w c :
  tasks (evict w c) =
    if decide (healthy c (heap w) = false ∧ open c (heap w) = true)
    then tasks w ++ [TQuit c] else tasks w.
Proof.
  unfold evict. destruct (healthy c (heap w)) eqn:Hh.
  - case_decide as Hc; [destruct Hc; congruence|done].
  - rewrite destroy_tasks. destruct (open c (heap w)) eqn:Ho.
    + case_decide as Hc; [done|tauto].
    + case_decide as Hc; [destruct Hc; congruence|done].
Qed.

Lemma evict_counters w c :
  counters (evict w c) =
    if decide (healthy c (heap w) = false ∧ open c (heap w) = false)
    then mkStats (created (counters w)) (S (destroyed (counters w)))
           (acquired (counters w)) (released (counters w)) (errors (counters w))
    else counters w.
Proof.
  unfold evict. destruct (healthy c (heap w)) eqn:Hh.
  - case_decide as Hc; [destruct Hc; congruence|done].
  - rewrite destroy_counters. destruct (open c (heap w)) eqn:Ho.
    + case_decide as Hc; [destruct Hc; congruence|done].
    + case_decide as Hc; [done|tauto].
Qed.

Lemma sweep_fold_tasks l w :
  tasks (foldl evict w l) =
    tasks w ++ (TQuit <$> filter (λ c, healthy c (heap w) = false ∧ open c (heap w) = true) l).
Proof.
  revert w. induction l as [|d l IH]; intros w; simpl.
  - by rewrite app_nil_r.
  - rewrite IH, evict_heap, evict_tasks, filter_cons.
    case_decide; [|done]. rewrite fmap_cons, <- app_assoc. done.
Qed.

Lemma sweep_fold_counters l w :
  counters (foldl evict w l) =
    mkStats (created (counters w))
      (destroyed (counters w) +
         length (filter (λ c, healthy c (heap w) = false ∧ open c (heap w) = false) l))
      (acquired (counters w)) (released (counters w)) (errors (counters w)).
Proof.
  revert w. induction l as [|d l IH]; intros w; simpl.
  - rewrite Nat.add_0_r. by destruct (counters w).
  - rewrite IH, evict_heap, evict_counters, filter_cons.
    case_decide; [|done]. simpl. f_equal. lia.
Qed.
End SweepFacts.

Section DestroyAllFacts.
Implicit Types (l : list ref) (w : World).


Lemma destroy_fold_heap l acc : heap (foldl destroy_next acc l).1 = heap acc.1.
Proof.
  revert acc. induction l as [|c l IH]; intros acc; simpl; [done|].
  rewrite IH. apply destroy_heap.
Qed.

Lemma destroy_fold_out l acc : out (foldl destroy_next acc l).1 = out acc.1.
Proof.
  revert acc. induction l as [|c l IH]; intros acc; simpl; [done|].
  rewrite IH. apply destroy_out.
Qed.

Lemma destroy_fold_available l acc c :
  c ∈ available (foldl destroy_next acc l).1 ↔ c ∈ available acc.1 ∧ c ∉ l.
Proof.
  revert acc. induction l as [|d l IH]; intros acc; simpl.
  - rewrite elem_of_nil. tauto.
  - rewrite IH. simpl. rewrite destroy_available, in_delete, not_elem_of_cons. tauto.
Qed.

Lemma destroy_fold_busy l acc c :
  c ∈ busy (foldl destroy_next acc l).1 ↔ c ∈ busy acc.1 ∧ c ∉ l.
Proof.
  revert acc. induction l as [|d l IH]; intros acc; simpl.
  - rewrite elem_of_nil. tauto.
  - rewrite IH. simpl. rewrite destroy_busy, in_delete, not_elem_of_cons. tauto.
Qed.

Lemma destroy_fold_flags l acc :
  isShuttingDown (this (foldl destroy_next acc l).1) = isShuttingDown (this acc.1) ∧
  maxConnections (this (foldl destroy_next acc l).1) = maxConnections (this acc.1) ∧
  minConnections (this (foldl destroy_next acc l).1) = minConnections (this acc.1).
Proof.
  revert acc. induction l as [|d l IH]; intros acc; simpl; [done|].
  destruct (IH (destroy_next acc d)) as (-> & -> & ->). simpl.
  rewrite destroy_isShuttingDown. by destruct (destroy_limits d acc.1) as [-> ->].
Qed.

Lemma destroy_fold_tasks l acc :
  tasks (foldl destroy_next acc l).1 =
    tasks acc.1 ++ (TQuit <$> filter (λ c, open c (heap acc.1) = true) l).
Proof.
  revert acc. induction l as [|d l IH]; intros acc; simpl.
  - by rewrite app_nil_r.
  - rewrite IH. simpl. rewrite destroy_heap, destroy_tasks, filter_cons.
    destruct (open d (heap acc.1)) eqn:Ho.
    + case_decide; [|done]. rewrite fmap_cons, <- app_assoc. done.
    + case_decide; [done|]. done.
Qed.

Lemma destroy_fold_counters l acc :
  counters (foldl destroy_next acc l).1 =
    mkStats (created (counters acc.1))
      (destroyed (counters acc.1) + length (filter (λ c, open c (heap acc.1) = false) l))
      (acquired (counters acc.1)) (released (counters acc.1)) (errors (counters acc.1)).
Proof.
  revert acc. induction l as [|d l IH]; intros acc; simpl.
  - rewrite Nat.add_0_r. by destruct (counters acc.1).
  - rewrite IH. simpl. rewrite destroy_heap, destroy_counters, filter_cons.
    destruct (open d (heap acc.1)) eqn:Ho.
    + case_decide; [done|]. done.
    + case_decide; [|done]. simpl. f_equal. lia.
Qed.
End DestroyAllFacts.

(** *** [shutdown] and [healthCheck_sweep] as wholes *)

Section ShutdownFacts.
Variable w : World.

Lemma shutdown_available : available (shutdown w) = [].
Proof.
  unfold shutdown, destroy_all. simpl.
  apply elem_of_nil_inv. intros c.
  rewrite destroy_fold_available. simpl. rewrite elem_of_app. tauto.
Qed.

Lemma shutdown_busy : busy (shutdown w) = [].
Proof.
  unfold shutdown, destroy_all. simpl.
  apply elem_of_nil_inv. intros c.
  rewrite destroy_fold_busy. simpl. rewrite elem_of_app. tauto.
Qed.

Lemma shutdown_heap : heap (shutdown w) = heap w.
Proof. unfold shutdown, destroy_all. simpl. by rewrite destroy_fold_heap. Qed.

Lemma shutdown_out : out (shutdown w) = out w.
Proof. unfold shutdown, destroy_all. simpl. by rewrite destroy_fold_out. Qed.

Lemma shutdown_isShuttingDown : isShuttingDown (this (shutdown w)) = true.
Proof.
  unfold shutdown, destroy_all. simpl.
  by destruct (destroy_fold_flags (available w ++ busy w) (set_shutting_down w, []))
    as (-> & _).
Qed.

Lemma shutdown_limits :
  maxConnections (this (shutdown w)) = maxConnections (this w) ∧
  minConnections (this (shutdown w)) = minConnections (this w).
Proof.
  unfold shutdown, destroy_all. simpl.
  by destruct (destroy_fold_flags (available w ++ busy w) (set_shutting_down w, []))
    as (_ & -> & ->).
Qed.

Lemma shutdown_tasks :
  ∃ qs,
    tasks (shutdown w) =
      tasks w ++ (TQuit <$> filter (λ c, open c (heap w) = true) (available w ++ busy w))
              ++ [TShutdown qs].
Proof.
  unfold shutdown, destroy_all. simpl. eexists.
  rewrite destroy_fold_tasks. simpl. by rewrite <- app_assoc.
Qed.

Lemma shutdown_counters :
  counters (shutdown w) =
    mkStats (created (counters w))
      (destroyed (counters w) +
         length (filter (λ c, open c (heap w) = false) (available w ++ busy w)))
      (acquired (counters w)) (released (counters w)) (errors (counters w)).
Proof. unfold shutdown, destroy_all. simpl. by rewrite destroy_fold_counters. Qed.
End ShutdownFacts.

Section SweepWhole.
Variable w : World.

Lemma sweep_heap : heap (healthCheck_sweep w) = heap w.
Proof. apply sweep_fold_heap. Qed.

Lemma sweep_out : out (healthCheck_sweep w) = out w.
Proof. apply sweep_fold_out. Qed.

Lemma sweep_available c :
  c ∈ available (healthCheck_sweep w) ↔ c ∈ available w ∧ healthy c (heap w) = true.
Proof. unfold healthCheck_sweep. rewrite sweep_fold_available. tauto. Qed.

Lemma sweep_busy c : c ∈ busy (healthCheck_sweep w) → c ∈ busy w.
Proof. apply sweep_fold_busy. Qed.

Lemma sweep_isShuttingDown :
  isShuttingDown (this (healthCheck_sweep w)) = isShuttingDown (this w).
Proof. unfold healthCheck_sweep. by destruct (sweep_fold_flags (available w) w) as (-> & _). Qed.

Lemma sweep_limits :
  maxConnections (this (healthCheck_sweep w)) = maxConnections (this w) ∧
  minConnections (this (healthCheck_sweep w)) = minConnections (this w).
Proof. unfold healthCheck_sweep. by destruct (sweep_fold_flags (available w) w) as (_ & -> & ->). Qed.

Lemma sweep_tasks :
  tasks (healthCheck_sweep w) =
    tasks w ++ (TQuit <$> filter (λ c, healthy c (heap w) = false ∧ open c (heap w) = true)
                            (available w)).
Proof. apply sweep_fold_tasks. Qed.

Lemma sweep_counters :
  counters (healthCheck_sweep w) =
    mkStats (created (counters w))
      (destroyed (counters w) +
         length (filter (λ c, healthy c (heap w) = false ∧ open c (heap w) = false)
                   (available w)))
      (acquired (counters w)) (released (counters w)) (errors (counters w)).
Proof. apply sweep_fold_counters. Qed.
End SweepWhole.

(** *** What one step can do *)


Ltac unfold_methods H :=
  unfold acquireConnection, releaseConnection, on_error,
    handleConnectionError, created_for, create_failed_for in H.

Ltac step_open H :=
  simpl in H; unfold mbind, option_bind in H; unfold_methods H;
  repeat (case_match; simplify_eq); simplify_eq.

Ltac step_cases e H := destruct e; step_open H.

Ltac to_props :=
  repeat match goal with
  | H : JSSet.has _ _ = true |- _ => apply has_true in H
  | H : JSSet.has _ _ = false |- _ => apply has_false in H
  | H : _ && _ = true |- _ => apply andb_true_iff in H; destruct H
  | H : JSSet.first _ = Some _ |- _ => apply first_elem_of in H
  end.

Ltac split_hyps :=
  repeat match goal with
  | H : _ ∧ _ |- _ => destruct H
  | H : _ ∨ _ |- _ => destruct H
  | H : ∃ _, _ |- _ => destruct H
  | H : False |- _ => destruct H
  end.

Ltac settle := intros; split_hyps; simplify_eq; eauto 10.

Ltac same_lookup :=
  repeat match goal with
  | H1 : ?x = Some _, H2 : ?x = Some _ |- _ => rewrite H1 in H2; simplify_eq
  end.

Lemma step_available e w w' c :
  step e w = Some w' → c ∈ available w' →
  c ∈ available w ∨
  (∃ now cl k, e = ConnectOk c now ∧ heap w !! c = Some cl ∧ connecting cl = Some k) ∨
  (e = Release (Some c) ∧ c ∈ busy w ∧ healthy c (heap w) = true ∧ ready c (heap w) = true).
Proof.
  intros Hstep. step_cases e Hstep.
  all: rewrite ?shutdown_available, ?sweep_available.
  all: unfold_world.
  all: rewrite ?destroy_available.
  all: unfold_world.
  all: rewrite ?in_add, ?in_delete, ?elem_of_nil.
  all: to_props.
  all: try solve [settle].
Qed.

Lemma step_busy e w w' c :
  step e w = Some w' → c ∈ busy w' →
  c ∈ busy w ∨
  c ∈ available w ∨
  (∃ i, e = AcquireSettle i ∧ tasks w !! i = Some (TAcquireResume c)).
Proof.
  intros Hstep. step_cases e Hstep.
  all: rewrite ?shutdown_busy.
  all: try (intros Hsw; apply sweep_busy in Hsw; revert Hsw).
  all: unfold_world.
  all: rewrite ?destroy_busy.
  all: unfold_world.
  all: rewrite ?in_add, ?in_delete, ?elem_of_nil.
  all: to_props.
  all: try solve [settle].
Qed.

Lemma lookup_alter_Some (f : Client → Client) i (l : list Client) c cl :
  l !! c = Some cl →
  alter f i l !! c = Some (if decide (i = c) then f cl else cl).
Proof.
  intros H. rewrite list_lookup_alter. case_decide; subst; by rewrite H.
Qed.

Lemma lookup_alter_app_Some (f : Client → Client) i (l x : list Client) c cl :
  l !! c = Some cl →
  (alter f i l ++ x) !! c = Some (if decide (i = c) then f cl else cl).
Proof. intros H. apply lookup_app_l_Some. by apply lookup_alter_Some. Qed.

Lemma step_heap e w w' c cl :
  step e w = Some w' → heap w !! c = Some cl →
  ∃ cl', heap w' !! c = Some cl' ∧ stable cl cl'.
Proof.
  intros Hstep Hc. step_cases e Hstep.
  all: rewrite ?shutdown_heap, ?sweep_heap.
  all: unfold_world.
  all: rewrite ?destroy_heap.
  all: unfold_world.
  all: rewrite ?list_alter_alter_eq.
  all: first [ rewrite (lookup_alter_app_Some _ _ _ _ _ _ Hc)
             | rewrite (lookup_alter_Some _ _ _ _ _ Hc)
             | rewrite (lookup_app_l_Some _ _ _ _ Hc)
             | rewrite Hc ].
  all: eexists; (split; [reflexivity|]).
  all: unfold stable; intros.
  all: repeat (case_decide; simplify_eq); simpl.
  all: same_lookup.
  all: try done; try congruence.
Qed.

Ltac lookup_tasks :=
  rewrite ?lookup_app_Some, ?list_lookup_insert_Some, ?list_lookup_fmap_Some,
    ?list_lookup_singleton_Some.

Lemma step_tasks_resume e w w' i c :
  step e w = Some w' → tasks w' !! i = Some (TAcquireResume c) →
  tasks w !! i = Some (TAcquireResume c) ∨
  (∃ now cl, e = ConnectOk c now ∧ heap w !! c = Some cl ∧
             connecting cl = Some KAcquire).
Proof.
  intros Hstep. step_cases e Hstep.
  all: rewrite ?sweep_tasks.
  all: try (destruct (shutdown_tasks w) as [qs ->]).
  all: unfold_world.
  all: rewrite ?destroy_tasks.
  all: unfold_world.
  all: repeat case_match.
  all: lookup_tasks.
  all: try solve [settle].
Qed.

Lemma step_tasks_health e w w' i ps c :
  step e w = Some w' → tasks w' !! i = Some (THealth ps) → c ∈ ps →
  (∃ ps0, tasks w !! i = Some (THealth ps0) ∧ c ∈ ps0) ∨
  (e = HealthCheck ∧ c ∈ available w).
Proof.
  intros Hstep. step_cases e Hstep.
  all: rewrite ?sweep_tasks.
  all: try (destruct (shutdown_tasks w) as [qs ->]).
  all: unfold_world.
  all: rewrite ?destroy_tasks.
  all: unfold_world.
  all: repeat case_match.
  all: lookup_tasks.
  all: try solve [settle].
  all: intros [(-> & [= <-] & ?)|[? ?]]; rewrite ?in_delete; settle.
Qed.

Lemma step_isShuttingDown e w w' :
  step e w = Some w' → isShuttingDown (this w) = true →
  isShuttingDown (this w') = true.
Proof.
  intros Hstep. step_cases e Hstep.
  all: rewrite ?shutdown_isShuttingDown, ?sweep_isShuttingDown.
  all: unfold_world.
  all: rewrite ?destroy_isShuttingDown.
  all: unfold_world.
  all: try done.
Qed.

Lemma destroy_max c w :
  maxConnections (this (destroyConnection c w).1) = maxConnections (this w).
Proof. apply destroy_limits. Qed.

Lemma destroy_min c w :
  minConnections (this (destroyConnection c w).1) = minConnections (this w).
Proof. apply destroy_limits. Qed.

Lemma sweep_max w :
  maxConnections (this (healthCheck_sweep w)) = maxConnections (this w).
Proof. apply sweep_limits. Qed.

Lemma sweep_min w :
  minConnections (this (healthCheck_sweep w)) = minConnections (this w).
Proof. apply sweep_limits. Qed.

Lemma step_limits e w w' :
  step e w = Some w' →
  maxConnections (this w') = maxConnections (this w) ∧
  minConnections (this w') = minConnections (this w).
Proof.
  intros Hstep. step_cases e Hstep.
  all: try apply shutdown_limits.
  all: rewrite ?sweep_max, ?sweep_min.
  all: unfold_world.
  all: rewrite ?destroy_max, ?destroy_min.
  all: unfold_world.
  all: try done.
Qed.

Lemma step_acquired e w w' :
  step e w = Some w' →
  acquired (counters w') =
    acquired (counters w) +
      (if is_acquire e && negb (isShuttingDown (this w)) then 1 else 0).
Proof.
  intros Hstep. step_cases e Hstep.
  all: rewrite ?shutdown_counters, ?sweep_counters.
  all: unfold_world.
  all: rewrite ?destroy_counters.
  all: unfold_world.
  all: repeat case_match; simpl.
  all: try lia.
Qed.

(** *** Runs *)

Lemma run_app es1 es2 w :
  run (es1 ++ es2) w = w' ← run es1 w; run es2 w'.
Proof.
  revert w. induction es1 as [|e es1 IH]; intros w; simpl; [done|].
  destruct (step e w); simpl; [apply IH|done].
Qed.

Lemma run_cons_Some e es w w' :
  run (e :: es) w = Some w' ↔ ∃ w1, step e w = Some w1 ∧ run es w1 = Some w'.
Proof.
  simpl. destruct (step e w) as [w1|]; simpl.
  - split; [eauto|]. by intros (? & [= <-] & ?).
  - split; [done|]. by intros (? & ? & ?).
Qed.

Lemma run_snoc_Some e es w w' :
  run (es ++ [e]) w = Some w' ↔ ∃ w1, run es w = Some w1 ∧ step e w1 = Some w'.
Proof.
  rewrite run_app. destruct (run es w) as [w1|]; simpl.
  - destruct (step e w1) eqn:E; simpl.
    + split; [intros [= <-]; eauto|]. intros (? & [= <-] & ?). congruence.
    + split; [done|]. intros (? & [= <-] & ?). congruence.
  - split; [done|]. by intros (? & ? & ?).
Qed.

Lemma run_invariant (P : World → Prop) :
  (∀ e w w', P w → step e w = Some w' → P w') →
  ∀ es w w', P w → run es w = Some w' → P w'.
Proof.
  intros Hstep es. induction es as [|e es IH]; intros w w' HP; simpl.
  - by intros [= <-].
  - destruct (step e w) as [w1|] eqn:He; simpl; [|done]. eauto.
Qed.

Lemma reachable_step e w w' : reachable w → step e w = Some w' → reachable w'.
Proof.
  intros (o & es & Hrun) He. exists o, (es ++ [e]).
  apply run_snoc_Some. eauto.
Qed.

Lemma reachable_run es w w' : reachable w → run es w = Some w' → reachable w'.
Proof. apply run_invariant. intros. by eapply reachable_step. Qed.

(** *** Clients the pool refers to have completed their creation *)

Lemma registered_settled c w : registered c w → settled c w.
Proof. intros (cl & ? & ? & ?). by exists cl. Qed.

Lemma registered_step e w w' c :
  step e w = Some w' → registered c w → registered c w'.
Proof.
  intros He (cl & Hc & Hs & Hid).
  destruct (step_heap _ _ _ _ _ He Hc) as (cl' & Hc' & Hst).
  destruct (Hst Hs) as (? & ? & ?). exists cl'. split_and!; congruence.
Qed.

Lemma settled_step e w w' c :
  step e w = Some w' → settled c w → settled c w'.
Proof.
  intros He (cl & Hc & Hs).
  destruct (step_heap _ _ _ _ _ He Hc) as (cl' & Hc' & Hst).
  destruct (Hst Hs) as (? & ? & ?). by exists cl'.
Qed.

Lemma connect_ok_registered c now w w' :
  step (ConnectOk c now) w = Some w' → registered c w'.
Proof.
  intros Hstep. step_open Hstep.
  all: unfold_world.
  all: rewrite ?list_alter_alter_eq.
  all: unfold registered; simpl.
  all: erewrite lookup_alter_Some by eassumption; rewrite decide_True by done.
  all: eexists; split; [reflexivity|done].
Qed.

Lemma tracked_registered_step e w w' :
  tracked_registered w → step e w = Some w' → tracked_registered w'.
Proof.
  intros (Hsets & Hres & Hping) He. split_and!.
  - intros c [Hc|Hc].
    + destruct (step_available _ _ _ _ He Hc)
        as [?|[(now & ? & ? & -> & _)|(_ & ? & _)]];
        eauto using registered_step, connect_ok_registered.
    + destruct (step_busy _ _ _ _ He Hc) as [?|[?|(? & _ & ?)]];
        eauto using registered_step.
  - intros i c Hi.
    destruct (step_tasks_resume _ _ _ _ _ He Hi) as [?|(now & ? & -> & _)];
      eauto using registered_step, connect_ok_registered.
  - intros i ps c Hi Hc.
    destruct (step_tasks_health _ _ _ _ _ _ He Hi Hc) as [(? & ? & ?)|[_ ?]];
      eauto using registered_step.
Qed.

Lemma tracked_registered_constructor options :
  tracked_registered (constructor options).
Proof.
  unfold tracked_registered. rewrite constructor_this. simpl.
  unfold constructor, initializePool. simpl. rewrite iter_create_tasks. simpl.
  split_and!.
  - intros c [?%elem_of_nil|?%elem_of_nil]; done.
  - intros [|i] c; simpl; [done|]. by rewrite lookup_nil.
  - intros [|i] ps c; simpl; [done|]. by rewrite lookup_nil.
Qed.

Lemma reachable_tracked_registered w : reachable w → tracked_registered w.
Proof.
  intros (o & es & Hrun).
  eapply (run_invariant tracked_registered); [|apply tracked_registered_constructor|done].
  intros. by eapply tracked_registered_step.
Qed.

Lemma registered_has_connectionId c w :
  registered c w → has_connectionId c (heap w) = true.
Proof.
  intros (cl & Hc & _ & Hid). unfold has_connectionId. by rewrite Hc, Hid.
Qed.

(** *** The sets hold each client once *)

Lemma destroy_NoDup c w : sets_NoDup w → sets_NoDup (destroyConnection c w).1.
Proof.
  intros [? ?]. unfold sets_NoDup.
  rewrite destroy_available, destroy_busy. split; by apply NoDup_delete.
Qed.

Lemma sweep_fold_NoDup l w : sets_NoDup w → sets_NoDup (foldl evict w l).
Proof.
  revert w. induction l as [|c l IH]; intros w H; simpl; [done|].
  apply IH. unfold evict. case_match; [done|]. by apply destroy_NoDup.
Qed.

Lemma destroy_fold_NoDup l acc :
  sets_NoDup acc.1 → sets_NoDup (foldl destroy_next acc l).1.
Proof.
  revert acc. induction l as [|c l IH]; intros acc H; simpl; [done|].
  apply IH. simpl. by apply destroy_NoDup.
Qed.

Lemma step_NoDup e w w' : sets_NoDup w → step e w = Some w' → sets_NoDup w'.
Proof.
  intros [Ha Hb] Hstep. step_cases e Hstep.
  all: try (apply sweep_fold_NoDup; done).
  all: try (unfold shutdown, destroy_all; apply (destroy_fold_NoDup _ (_, [])); done).
  all: try (apply destroy_NoDup).
  all: unfold sets_NoDup; unfold_world.
  all: split; repeat first [ assumption | apply NoDup_add | apply NoDup_delete ].
Qed.

Lemma reachable_NoDup w : reachable w → sets_NoDup w.
Proof.
  intros (o & es & Hrun).
  apply (run_invariant sets_NoDup) with es (constructor o); [| |done].
  - intros. by eapply step_NoDup.
  - unfold sets_NoDup. rewrite constructor_this. simpl. split; constructor.
Qed.

(** *** No client is in both sets *)

Lemma step_disjoint e w w' :
  tracked_registered w → sets_disjoint w → step e w = Some w' → sets_disjoint w'.
Proof.
  intros (Hreg & _ & _) Hd Hstep c. step_cases e Hstep.
  all: rewrite ?shutdown_available, ?sweep_available.
  all: try (intros Hsa Hsw; apply sweep_busy in Hsw; revert Hsa Hsw).
  all: unfold_world.
  all: rewrite ?destroy_available, ?destroy_busy.
  all: unfold_world.
  all: rewrite ?in_add, ?in_delete, ?elem_of_nil.
  all: to_props.
  all: intros Ha Hb; split_hyps; simplify_eq.
  all: try done.
  all: try (by eapply Hd).
  all: try match goal with
       | Hb : ?d ∈ busyConnections (this _) |- _ =>
           destruct (Hreg d (or_intror Hb)) as (? & ? & ? & ?); same_lookup; congruence
       end.
Qed.

Lemma reachable_disjoint w : reachable w → sets_disjoint w.
Proof.
  intros (o & es & Hrun).
  assert (tracked_registered w ∧ sets_disjoint w) as [_ ?]; [|done].
  apply (run_invariant (λ w, tracked_registered w ∧ sets_disjoint w))
    with es (constructor o); [| |done].
  - intros e v v' [? ?] He. split.
    + by eapply tracked_registered_step.
    + by eapply step_disjoint.
  - split; [apply tracked_registered_constructor|].
    intros c. rewrite constructor_this. simpl. by intros ?%elem_of_nil.
Qed.

(** ** The constructor *)

(** C10. An option given as [0] is replaced by its default, exactly as an
    option that is left out: the pool that is built is the same, state and
    started creations included, for each of [maxConnections],
    [minConnections], [connectionTimeout], [retryDelay] and [maxRetries]
    (defaults 10, 2, 30000, 1000, 5); and no options give a pool whose
    [minConnections] is [0]. *)
Theorem constructor_zero_is_default (mx mn ct rd mr : option Z) :
  (constructor (mkOptions (Some 0%Z) mn ct rd mr) = constructor (mkOptions None mn ct rd mr) ∧
   maxConnections (this (constructor (mkOptions (Some 0%Z) mn ct rd mr))) = 10%Z) ∧
  (constructor (mkOptions mx (Some 0%Z) ct rd mr) = constructor (mkOptions mx None ct rd mr) ∧
   minConnections (this (constructor (mkOptions mx (Some 0%Z) ct rd mr))) = 2%Z) ∧
  (constructor (mkOptions mx mn (Some 0%Z) rd mr) = constructor (mkOptions mx mn None rd mr) ∧
   connectionTimeout (this (constructor (mkOptions mx mn (Some 0%Z) rd mr))) = 30000%Z) ∧
  (constructor (mkOptions mx mn ct (Some 0%Z) mr) = constructor (mkOptions mx mn ct None mr) ∧
   retryDelay (this (constructor (mkOptions mx mn ct (Some 0%Z) mr))) = 1000%Z) ∧
  (constructor (mkOptions mx mn ct rd (Some 0%Z)) = constructor (mkOptions mx mn ct rd None) ∧
   maxRetries (this (constructor (mkOptions mx mn ct rd (Some 0%Z)))) = 5%Z) ∧
  minConnections (this (constructor (mkOptions mx mn ct rd mr))) ≠ 0%Z.
Proof.
  rewrite !constructor_this. simpl.
  split_and!; try reflexivity.
  unfold js_or. destruct mn as [n|]; [|done].
  destruct (Z.eqb_spec n 0); [done|done].
Qed.

(** *** Clients that are not healthy stay out *)

Lemma retired_step e w w' c :
  step e w = Some w' → retired c w → retired c w'.
Proof.
  intros He (cl & Hc & Hs & Hh).
  destruct (step_heap _ _ _ _ _ He Hc) as (cl' & Hc' & Hst).
  destruct (Hst Hs) as (? & ? & ?). exists cl'. split_and!; [done|done|]. auto.
Qed.

Lemma retired_not_healthy c w : retired c w → healthy c (heap w) = false.
Proof.
  intros (cl & Hc & _ & Hh). unfold healthy. rewrite Hc.
  by apply bool_decide_eq_false.
Qed.

Lemma retired_out_step e w w' c :
  step e w = Some w' → retired c w → c ∉ available w → c ∉ available w'.
Proof.
  intros He Hr Hout Hin.
  destruct (step_available _ _ _ _ He Hin)
    as [?|[(now & cl & k & _ & Hc & Hk)|(_ & _ & Hh & _)]].
  - done.
  - destruct Hr as (cl' & Hc' & Hs & _). congruence.
  - rewrite (retired_not_healthy c w Hr) in Hh. done.
Qed.

Lemma retired_out_run es w w' c :
  run es w = Some w' → retired c w → c ∉ available w →
  retired c w' ∧ c ∉ available w'.
Proof.
  intros Hrun Hr Hout.
  apply (run_invariant (λ w, retired c w ∧ c ∉ available w)) with es w; [|done|done].
  intros e v v' [? ?] He. split; eauto using retired_step, retired_out_step.
Qed.

Lemma retired_run es w w' c :
  run es w = Some w' → retired c w → retired c w'.
Proof.
  intros Hrun Hr. apply (run_invariant (retired c)) with es w; [|done|done].
  intros. by eapply retired_step.
Qed.

Lemma step_healthy e w w' c :
  step e w = Some w' → healthy c (heap w') = true →
  healthy c (heap w) = true ∨ (∃ now, e = ConnectOk c now) ∨ length (heap w) ≤ c.
Proof.
  intros Hstep.
  destruct (heap w !! c) as [cl|] eqn:Hc;
    [|right; right; by apply lookup_ge_None].
  assert (Hold : healthy c (heap w) = bool_decide (isHealthy cl = Some true)).
  { unfold healthy. by rewrite Hc. }
  rewrite Hold. clear Hold. step_cases e Hstep.
  all: rewrite ?shutdown_heap, ?sweep_heap.
  all: unfold_world.
  all: rewrite ?destroy_heap.
  all: unfold_world.
  all: rewrite ?list_alter_alter_eq.
  all: unfold healthy.
  all: first [ rewrite (lookup_alter_app_Some _ _ _ _ _ _ Hc)
             | rewrite (lookup_alter_Some _ _ _ _ _ Hc)
             | rewrite (lookup_app_l_Some _ _ _ _ Hc)
             | rewrite Hc ].
  all: repeat (case_decide; simplify_eq); simpl.
  all: intros Hh.
  all: try (left; exact Hh).
  all: try (right; left; eexists; reflexivity).
  all: try (apply bool_decide_eq_true in Hh; discriminate).
  all: by left.
Qed.

Lemma unhealthy_out_step e w w' c :
  (∀ now, e ≠ ConnectOk c now) →
  step e w = Some w' →
  c < length (heap w) → healthy c (heap w) = false → c ∉ available w →
  c < length (heap w') ∧ healthy c (heap w') = false ∧ c ∉ available w'.
Proof.
  intros Hne He Hlt Hh Hout. split_and!.
  - destruct (lookup_lt_is_Some_2 _ _ Hlt) as [cl Hc].
    destruct (step_heap _ _ _ _ _ He Hc) as (cl' & Hc' & _).
    by eapply lookup_lt_Some.
  - destruct (healthy c (heap w')) eqn:Hh'; [|done].
    destruct (step_healthy _ _ _ _ He Hh') as [?|[[now ->]|?]].
    + congruence.
    + by destruct (Hne now).
    + lia.
  - intros Hin.
    destruct (step_available _ _ _ _ He Hin)
      as [?|[(now & ? & ? & -> & _)|(_ & _ & Hh' & _)]].
    + done.
    + by destruct (Hne now).
    + congruence.
Qed.

Lemma unhealthy_out_run es w w' c :
  Forall (λ e, ∀ now, e ≠ ConnectOk c now) es →
  run es w = Some w' →
  c < length (heap w) → healthy c (heap w) = false → c ∉ available w →
  c ∉ available w'.
Proof.
  intros Hes. revert w. induction Hes as [|e es He Hes IH]; intros w; simpl.
  - by intros [= <-].
  - destruct (step e w) as [w1|] eqn:E; simpl; [|done].
    intros Hrun Hlt Hh Hout.
    destruct (unhealthy_out_step _ _ _ _ He E Hlt Hh Hout) as (? & ? & ?). eauto.
Qed.

(** *** A pool that is shutting down *)

Lemma isShuttingDown_run es w w' :
  run es w = Some w' → isShuttingDown (this w) = true →
  isShuttingDown (this w') = true.
Proof.
  intros Hrun Hs.
  apply (run_invariant (λ w, isShuttingDown (this w) = true)) with es w; [|done|done].
  intros. by eapply step_isShuttingDown.
Qed.

Lemma drained_step e w w' :
  is_connect_ok e = false →
  available w = [] → busy w = [] → no_grow_in_flight w →
  step e w = Some w' →
  available w' = [] ∧ busy w' = [] ∧ no_grow_in_flight w'.
Proof.
  intros Hne Ha Hb Hg He. split_and!.
  - apply elem_of_nil_inv. intros c Hc.
    destruct (step_available _ _ _ _ He Hc) as [Hin|[(? & ? & ? & -> & _)|(_ & Hin & _)]].
    + rewrite Ha in Hin. by apply elem_of_nil in Hin.
    + done.
    + rewrite Hb in Hin. by apply elem_of_nil in Hin.
  - apply elem_of_nil_inv. intros c Hc.
    destruct (step_busy _ _ _ _ He Hc) as [Hin|[Hin|(i & _ & Hi)]].
    + rewrite Hb in Hin. by apply elem_of_nil in Hin.
    + rewrite Ha in Hin. by apply elem_of_nil in Hin.
    + by apply Hg in Hi.
  - intros i c Hi.
    destruct (step_tasks_resume _ _ _ _ _ He Hi) as [Hold|(? & ? & -> & _)].
    + by apply Hg in Hold.
    + done.
Qed.

Lemma drained_run es w w' :
  Forall (λ e, is_connect_ok e = false) es →
  available w = [] → busy w = [] → no_grow_in_flight w →
  run es w = Some w' →
  available w' = [] ∧ busy w' = [].
Proof.
  intros Hes. revert w. induction Hes as [|e es He Hes IH]; intros w Ha Hb Hg; simpl.
  - intros [= <-]. done.
  - destruct (step e w) as [w1|] eqn:E; simpl; [|done].
    destruct (drained_step _ _ _ He Ha Hb Hg E) as (? & ? & ?). eauto.
Qed.

Lemma shutdown_no_grow w : no_grow_in_flight w → no_grow_in_flight (shutdown w).
Proof.
  intros Hg i c. destruct (shutdown_tasks w) as [qs ->]. intros H.
  apply lookup_app_Some in H as [H|[_ H]]; [by apply Hg in H|].
  apply lookup_app_Some in H as [H|[_ H]].
  - apply list_lookup_fmap_Some in H as (? & ? & ?). done.
  - apply list_lookup_singleton_Some in H as [_ ?]. done.
Qed.

(** ** Shutdown *)

(** What [shutdown()] achieves. When [shutdown()] reaches its [await], the two
    sets are empty and the pool is marked as shutting down. From then on
    every [acquireConnection()] throws the shutting-down error and leaves
    the pool as it is. The sets are still empty when [shutdown()]
    resumes, and later, provided that no [acquireConnection()] of
    strategy 2 was about to resume when [shutdown()] was called and that
    no [connect()] fulfils afterwards. *)
Theorem shutdown_drains (w : World) :
  (available (shutdown w) = [] ∧ busy (shutdown w) = [] ∧
   getTotalConnections (shutdown w) = 0 ∧
   isShuttingDown (this (shutdown w)) = true) ∧
  (∀ es w' now, run es (shutdown w) = Some w' →
     step (Acquire now) w' = Some (emit (AcquireThrew PoolShuttingDown) w')) ∧
  (∀ es w', no_grow_in_flight w →
     Forall (λ e, is_connect_ok e = false) es →
     run es (shutdown w) = Some w' →
     available w' = [] ∧ busy w' = [] ∧ getTotalConnections w' = 0).
Proof.
  split_and!.
  - apply shutdown_available.
  - apply shutdown_busy.
  - unfold getTotalConnections. by rewrite shutdown_available, shutdown_busy.
  - apply shutdown_isShuttingDown.
  - intros es w' now Hrun. simpl. unfold acquireConnection.
    by rewrite (isShuttingDown_run _ _ _ Hrun (shutdown_isShuttingDown w)).
  - intros es w' Hg Hes Hrun.
    destruct (drained_run es (shutdown w) w' Hes (shutdown_available w)
                (shutdown_busy w) (shutdown_no_grow w Hg) Hrun) as [Ha Hb].
    unfold getTotalConnections. by rewrite Ha, Hb.
Qed.

Lemma shutdown_drains_witness :
  no_grow_in_flight (world_after (started ++ [Acquire 2])) ∧
  Forall (λ e, is_connect_ok e = false) [QuitOk 1; QuitOk 2; ShutdownSettle 3; Release (Some 0)] ∧
  run [QuitOk 1; QuitOk 2; ShutdownSettle 3; Release (Some 0)]
      (shutdown (world_after (started ++ [Acquire 2]))) =
    Some (world_after (started ++ [Acquire 2; Shutdown; QuitOk 1; QuitOk 2;
                                   ShutdownSettle 3; Release (Some 0)])) ∧
  getTotalConnections
    (world_after (started ++ [Acquire 2; Shutdown; QuitOk 1; QuitOk 2;
                              ShutdownSettle 3; Release (Some 0)])) = 0.
Proof.
  assert (Hg : no_grow_in_flight (world_after (started ++ [Acquire 2]))).
  { intros [|[|i]] c; vm_compute; congruence. }
  assert (He : Forall (λ e, is_connect_ok e = false)
                 [QuitOk 1; QuitOk 2; ShutdownSettle 3; Release (Some 0)]).
  { repeat constructor. }
  assert (Hr : run [QuitOk 1; QuitOk 2; ShutdownSettle 3; Release (Some 0)]
      (shutdown (world_after (started ++ [Acquire 2]))) =
    Some (world_after (started ++ [Acquire 2; Shutdown; QuitOk 1; QuitOk 2;
                                   ShutdownSettle 3; Release (Some 0)]))).
  { vm_compute. reflexivity. }
  split_and!; [exact Hg|exact He|exact Hr|].
  destruct (shutdown_drains (world_after (started ++ [Acquire 2]))) as (_ & _ & H).
  exact (proj2 (proj2 (H _ _ Hg He Hr))).
Defined.

(** C6 fails on the code: the third [acquireConnection()] is waiting for
    its new connection when [shutdown()] is called; the connection
    arrives while the old ones are being closed and is handed to the
    caller. When [shutdown()] has resumed (every task has ended), client
    2 is open and in [busy], and its release puts it in [available] of
    the pool that has shut down. An [acquireConnection()] made after
    [shutdown()] still throws. [shutdown()] is documented as closing all
    connections; it closes those of the two sets at the time of the call
    and misses the creation in flight. *)
Lemma shutdown_misses_connection_in_flight :
  ∃ w w',
    run (started ++ [Acquire 2; Acquire 2; Acquire 2; Shutdown; ConnectOk 2 3;
                     AcquireSettle 4; QuitOk 1; QuitOk 2; ShutdownSettle 3])
        (constructor options_3_2) = Some w ∧
    tasks w = [TDone; TDone; TDone; TDone; TDone] ∧
    isShuttingDown (this w) = true ∧
    available w = [] ∧ busy w = [2] ∧ getTotalConnections w = 1 ∧
    open 2 (heap w) = true ∧
    out w = [EmitReady; AcquireReturned 0; AcquireReturned 1; AcquireReturned 2] ∧
    step (Acquire 4) w = Some (emit (AcquireThrew PoolShuttingDown) w) ∧
    step (Release (Some 2)) w = Some w' ∧
    available w' = [2] ∧ busy w' = [] ∧ getTotalConnections w' = 1.
Proof. do 2 eexists. split_and!; vm_compute; reflexivity. Qed.

(** ** Release *)

Lemma release_untracked_eq (w : World) (client : option ref) :
  (∀ c, client = Some c → c ∉ busy w) →
  releaseConnection client w =
    if match client with Some c => has_connectionId c (heap w) | None => false end
    then incr_released w else w.
Proof.
  intros Hc. unfold releaseConnection. destruct client as [c|]; [|done].
  destruct (has_connectionId c (heap w)); simpl; [|done].
  specialize (Hc c eq_refl). apply has_false in Hc. by rewrite Hc.
Qed.

(** C5, as the code has it. Releasing a client that is not in [busy]
    changes neither set, no client, no task and nothing shown, and no
    counter but [released]: that one goes up by one when the argument
    carries a connection identifier, and stays when the argument is [null]
    or has none. *)
Theorem release_untracked (w : World) (client : option ref) :
  (∀ c, client = Some c → c ∉ busy w) →
  available (releaseConnection client w) = available w ∧
  busy (releaseConnection client w) = busy w ∧
  isShuttingDown (this (releaseConnection client w)) = isShuttingDown (this w) ∧
  heap (releaseConnection client w) = heap w ∧
  tasks (releaseConnection client w) = tasks w ∧
  out (releaseConnection client w) = out w ∧
  created (counters (releaseConnection client w)) = created (counters w) ∧
  destroyed (counters (releaseConnection client w)) = destroyed (counters w) ∧
  acquired (counters (releaseConnection client w)) = acquired (counters w) ∧
  errors (counters (releaseConnection client w)) = errors (counters w) ∧
  released (counters (releaseConnection client w)) =
    released (counters w) +
      (if match client with Some c => has_connectionId c (heap w) | None => false end
       then 1 else 0).
Proof.
  intros Hc. rewrite (release_untracked_eq w client Hc).
  case_match; simpl; split_and!; try done; lia.
Qed.

Lemma release_untracked_witness :
  (∀ c, Some 0 = Some c →
        c ∉ busy (world_after (started ++ [Acquire 2; Release (Some 0)]))) ∧
  released (counters (releaseConnection (Some 0)
     (world_after (started ++ [Acquire 2; Release (Some 0)])))) = 2.
Proof.
  assert (H : ∀ c, Some 0 = Some c →
        c ∉ busy (world_after (started ++ [Acquire 2; Release (Some 0)]))).
  { intros c [= <-]. vm_compute. inversion 1. }
  split; [exact H|].
  destruct (release_untracked _ _ H) as (_ & _ & _ & _ & _ & _ & _ & _ & _ & _ & ->).
  vm_compute. reflexivity.
Defined.

(** C5 as stated fails: a second release of the same client finds it in
    neither set, and [released] still goes from 1 to 2. *)
Lemma release_untracked_counted :
  ∃ w w',
    run (started ++ [Acquire 2; Release (Some 0)]) (constructor options_3_2) = Some w ∧
    busy w = [] ∧
    step (Release (Some 0)) w = Some w' ∧
    released (counters w) = 1 ∧ released (counters w') = 2.
Proof. do 2 eexists. split_and!; vm_compute; reflexivity. Qed.

(** C3, as the code has it. Releasing a client that is in [busy] removes
    it from [busy] and counts the release. It goes back to [available]
    when it is healthy and its handle is ready, and is given to
    [destroyConnection] otherwise, which takes it out of both sets and
    either counts it as destroyed at once (handle not open) or waits for
    [quit()]. A client that is not healthy is therefore not in [available]
    after its release. *)
Theorem release_tracked (w w' : World) (c : ref) :
  reachable w → c ∈ busy w →
  step (Release (Some c)) w = Some w' →
  (c ∉ busy w') ∧
  released (counters w') = S (released (counters w)) ∧
  (healthy c (heap w) = true → ready c (heap w) = true →
     available w' = JSSet.add c (available w) ∧ c ∈ available w' ∧
     tasks w' = tasks w ∧ destroyed (counters w') = destroyed (counters w)) ∧
  ((healthy c (heap w) && ready c (heap w)) = false →
     w' = (destroyConnection c (with_busy (JSSet.delete c) (incr_released w))).1 ∧
     (c ∉ available w') ∧
     (if open c (heap w)
      then tasks w' = tasks w ++ [TQuit c] ∧
           destroyed (counters w') = destroyed (counters w)
      else tasks w' = tasks w ∧
           destroyed (counters w') = S (destroyed (counters w)))) ∧
  (healthy c (heap w) = false → c ∉ available w').
Proof.
  intros Hreach Hbusy [= <-].
  pose proof (reachable_tracked_registered w Hreach) as (Hreg & _).
  pose proof (registered_has_connectionId c w (Hreg c (or_intror Hbusy))) as Hid.
  unfold releaseConnection. rewrite Hid. simpl.
  apply has_true in Hbusy. rewrite Hbusy.
  destruct (healthy c (heap w) && ready c (heap w)) eqn:Hhr.
  - apply andb_true_iff in Hhr as [Hh Hr]. simpl. split_and!.
    + apply not_in_delete.
    + done.
    + intros _ _. split_and!; [done| |done|done]. rewrite in_add. by left.
    + done.
    + congruence.
  - rewrite destroy_busy, destroy_available, destroy_tasks, destroy_counters. simpl.
    split_and!.
    + rewrite delete_idemp. apply not_in_delete.
    + by destruct (open c (heap w)).
    + intros Hh Hr. rewrite Hh, Hr in Hhr. done.
    + intros _. split_and!; [done|apply not_in_delete|].
      by destruct (open c (heap w)).
    + intros _. apply not_in_delete.
Qed.

Lemma release_tracked_witness :
  reachable (world_after (started ++ [Acquire 2])) ∧
  0 ∈ busy (world_after (started ++ [Acquire 2])) ∧
  0 ∈ available (releaseConnection (Some 0) (world_after (started ++ [Acquire 2]))).
Proof.
  assert (Hr : reachable (world_after (started ++ [Acquire 2]))).
  { exists options_3_2, (started ++ [Acquire 2]). vm_compute. reflexivity. }
  assert (Hb : 0 ∈ busy (world_after (started ++ [Acquire 2]))).
  { vm_compute. left. }
  split_and!; [exact Hr|exact Hb|].
  destruct (release_tracked _ _ 0 Hr Hb eq_refl) as (_ & _ & H & _).
  apply H; vm_compute; reflexivity.
Defined.

(** C3 as stated fails: client 0 is busy and healthy, its handle is not
    ready; its release gives it to [destroyConnection] and not back to
    [available]. *)
Lemma release_healthy_not_ready :
  ∃ w w',
    run (started ++ [Acquire 2; HandleState 0 false true]) (constructor options_3_2) = Some w ∧
    busy w = [0] ∧ available w = [1] ∧
    (isHealthy <$> heap w !! 0) = Some (Some true) ∧
    step (Release (Some 0)) w = Some w' ∧
    busy w' = [] ∧ available w' = [1] ∧ tasks w' = [TDone; TQuit 0].
Proof. do 2 eexists. split_and!; vm_compute; reflexivity. Qed.

(** ** Destroy *)

(** C4, as the code has it. [destroyConnection] takes the client out of
    both sets and never throws. When the handle is not open the call ends
    at once and adds one to [destroyed]; when it is open the call waits
    for [quit()], and adds one to [destroyed] when [quit()] fulfils. When
    [quit()] rejects, the error is logged and nothing else happens. A
    second call for the same client finds the sets as the first call left
    them. *)
Theorem destroy_counts_completed_calls (c : ref) (w : World) :
  ((c ∉ available (destroyConnection c w).1) ∧ (c ∉ busy (destroyConnection c w).1) ∧
   out (destroyConnection c w).1 = out w) ∧
  (open c (heap w) = false →
     (destroyConnection c w).2 = None ∧
     tasks (destroyConnection c w).1 = tasks w ∧
     destroyed (counters (destroyConnection c w).1) = S (destroyed (counters w))) ∧
  (open c (heap w) = true →
     (destroyConnection c w).2 = Some (length (tasks w)) ∧
     tasks (destroyConnection c w).1 = tasks w ++ [TQuit c] ∧
     destroyed (counters (destroyConnection c w).1) = destroyed (counters w)) ∧
  (∀ i w', tasks w !! i = Some (TQuit c) → step (QuitOk i) w = Some w' →
     destroyed (counters w') = S (destroyed (counters w)) ∧
     tasks w' = <[i:=TDone]> (tasks w) ∧
     available w' = available w ∧ busy w' = busy w ∧ out w' = out w) ∧
  (∀ i w', tasks w !! i = Some (TQuit c) → step (QuitFail i) w = Some w' →
     w' = emit (ConsoleError (LogDestroyError c)) (set_task i TDone w)) ∧
  (available (destroyConnection c (destroyConnection c w).1).1 =
     available (destroyConnection c w).1 ∧
   busy (destroyConnection c (destroyConnection c w).1).1 =
     busy (destroyConnection c w).1).
Proof.
  split_and!.
  - rewrite destroy_available. apply not_in_delete.
  - rewrite destroy_busy. apply not_in_delete.
  - apply destroy_out.
  - intros Ho. rewrite (destroy_closed_eq c w Ho). done.
  - intros Ho. rewrite (destroy_open_eq c w Ho). done.
  - intros i w' Hi Hs. simpl in Hs. rewrite Hi in Hs. by simplify_eq.
  - intros i w' Hi Hs. simpl in Hs. rewrite Hi in Hs. by simplify_eq.
  - rewrite !destroy_available. apply delete_idemp.
  - rewrite !destroy_busy. apply delete_idemp.
Qed.

Lemma destroy_counts_completed_calls_witness :
  open 0 (heap (world_after started)) = true ∧
  tasks (destroyConnection 0 (world_after started)).1 = [TDone; TQuit 0] ∧
  destroyed (counters (destroyConnection 0 (world_after started)).1) = 0.
Proof.
  assert (Ho : open 0 (heap (world_after started)) = true) by (vm_compute; reflexivity).
  split; [exact Ho|].
  destruct (destroy_counts_completed_calls 0 (world_after started))
    as (_ & _ & H & _).
  destruct (H Ho) as (_ & -> & ->). vm_compute. done.
Defined.

(** C4 as stated fails twice. A health check evicts client 0 and its
    [quit()] rejects: every task has ended and [destroyed] is still 0. And
    client 2, destroyed by a shutdown between its creation and the return
    of the [acquireConnection()] that asked for it, is destroyed again at
    its release: [destroyed] is 2 while the [quit()] of clients 0 and 1
    have not settled. *)
Lemma destroy_not_once_per_record :
  (∃ w,
     run (started ++ [HealthCheck; PingFail 1 0; PingOk 1 1; HealthSettle 1; QuitFail 2])
         (constructor options_3_2) = Some w ∧
     available w = [1] ∧ busy w = [] ∧ tasks w = [TDone; TDone; TDone] ∧
     out w = [EmitReady; ConsoleError (LogHealthCheckFailed 0);
              ConsoleError (LogDestroyError 0)] ∧
     destroyed (counters w) = 0) ∧
  (∃ w,
     run (started ++ [Acquire 2; Acquire 2; Acquire 2; ConnectOk 2 3; Shutdown;
                      AcquireSettle 1; QuitOk 2; Release (Some 2)])
         (constructor options_3_2) = Some w ∧
     tasks w = [TDone; TDone; TDone; TQuit 0; TQuit 1; TShutdown [2; 3; 4]] ∧
     destroyed (counters w) = 2).
Proof. split; eexists; split_and!; vm_compute; reflexivity. Qed.

(** ** Health check *)

Lemma ping_fail_retired i c w w' :
  tracked_registered w → step (PingFail i c) w = Some w' → retired c w'.
Proof.
  intros (_ & _ & Hping) Hstep. step_open Hstep.
  match goal with H : bool_decide _ = true |- _ => apply bool_decide_eq_true in H end.
  match goal with
  | Ht : tasks w !! i = Some (THealth ?ps), Hin : c ∈ ?ps |- _ =>
      destruct (Hping i ps c Ht Hin) as (cl & Hc & Hs & _)
  end.
  unfold retired, ping_failed. unfold_world.
  rewrite (lookup_alter_Some _ _ _ _ _ Hc), decide_True by done.
  eexists. split_and!; [reflexivity|done|done].
Qed.

(** C7, as the code has it. [healthCheck()] pings the clients that are in
    [available] when it is called, and no others. When it resumes it
    keeps in [available] the clients that are healthy and gives the others
    to [destroyConnection] without waiting for it: [destroyed] has gone up
    by one for each evicted client whose handle was not open, and a
    [quit()] is pending for each evicted client whose handle was open. A
    client whose ping failed is not in [available] once the health check
    has resumed, nor at any time after that. *)
Theorem healthCheck_evicts (w : World) :
  (tasks (healthCheck w) = tasks w ++ [THealth (available w)] ∧
   this (healthCheck w) = this w ∧ heap (healthCheck w) = heap w) ∧
  (∀ i w', step (HealthSettle i) w = Some w' →
     (∀ c, c ∈ available w' ↔ c ∈ available w ∧ healthy c (heap w) = true) ∧
     destroyed (counters w') =
       destroyed (counters w) +
         length (filter (λ c, healthy c (heap w) = false ∧ open c (heap w) = false)
                   (available w)) ∧
     tasks w' =
       <[i:=TDone]> (tasks w) ++
         (TQuit <$> filter (λ c, healthy c (heap w) = false ∧ open c (heap w) = true)
                      (available w))) ∧
  (∀ i c es1 es2 w', reachable w →
     run (PingFail i c :: es1 ++ HealthSettle i :: es2) w = Some w' →
     c ∉ available w').
Proof.
  split_and!; try done.
  - intros i w' Hstep. step_open Hstep.
    split_and!.
    + intros c. by rewrite sweep_available.
    + by rewrite sweep_counters.
    + by rewrite sweep_tasks.
  - intros i c es1 es2 w' Hreach Hrun.
    apply run_cons_Some in Hrun as (w1 & Hping & Hrun).
    rewrite run_app in Hrun.
    destruct (run es1 w1) as [w2|] eqn:Hes1; [|done].
    apply run_cons_Some in Hrun as (w3 & Hsettle & Hrun).
    pose proof (ping_fail_retired _ _ _ _ (reachable_tracked_registered w Hreach) Hping)
      as Hret1.
    pose proof (retired_run _ _ _ _ Hes1 Hret1) as Hret2.
    assert (c ∉ available w3) as Hout3.
    { step_open Hsettle. rewrite sweep_available. simpl.
      rewrite (retired_not_healthy c w2 Hret2). intros [_ ?]. done. }
    pose proof (retired_step _ _ _ _ Hsettle Hret2) as Hret3.
    by destruct (retired_out_run _ _ _ _ Hrun Hret3 Hout3).
Qed.

Lemma healthCheck_evicts_witness :
  reachable (world_after (started ++ [HealthCheck])) ∧
  run (PingFail 1 0 :: [PingOk 1 1] ++ HealthSettle 1 :: [Acquire 2])
      (world_after (started ++ [HealthCheck])) =
    Some (world_after (started ++ [HealthCheck; PingFail 1 0; PingOk 1 1;
                                   HealthSettle 1; Acquire 2])) ∧
  ¬ 0 ∈ available (world_after (started ++ [HealthCheck; PingFail 1 0; PingOk 1 1;
                                            HealthSettle 1; Acquire 2])).
Proof.
  assert (Hr : reachable (world_after (started ++ [HealthCheck]))).
  { exists options_3_2, (started ++ [HealthCheck]). vm_compute. reflexivity. }
  assert (Hrun : run (PingFail 1 0 :: [PingOk 1 1] ++ HealthSettle 1 :: [Acquire 2])
      (world_after (started ++ [HealthCheck])) =
    Some (world_after (started ++ [HealthCheck; PingFail 1 0; PingOk 1 1;
                                   HealthSettle 1; Acquire 2]))).
  { vm_compute. reflexivity. }
  split_and!; [exact Hr|exact Hrun|].
  destruct (healthCheck_evicts (world_after (started ++ [HealthCheck]))) as (_ & _ & H).
  exact (H _ _ _ _ _ Hr Hrun).
Defined.

(** C7 as stated fails: the ping of client 0 fails and the health check
    resumes (its task has ended); client 0 has left [available], its
    [quit()] is pending, and [destroyed] is still 0. *)
Lemma healthCheck_resolves_before_destroy :
  ∃ w,
    run (started ++ [HealthCheck; PingFail 1 0; PingOk 1 1; HealthSettle 1])
        (constructor options_3_2) = Some w ∧
    available w = [1] ∧ tasks w = [TDone; TDone; TQuit 0] ∧
    destroyed (counters w) = 0.
Proof. eexists. split_and!; vm_compute; reflexivity. Qed.

(** ** Errors of a connection *)

Lemma on_error_eq c w :
  on_error c w =
    let w1 := with_available (JSSet.delete c)
                (with_busy (JSSet.delete c)
                   (with_client c (set_isHealthy false)
                      (incr_errors (emit (ConsoleError (LogConnectionError c)) w)))) in
    if (Z.of_nat (total_without c w) <? minConnections (this w))%Z
    then createConnection KReplace w1 else w1.
Proof.
  unfold on_error, handleConnectionError, total_without. unfold_world.
  destruct (JSSet.has c (busy w)) eqn:E; simpl; [reflexivity|].
  apply has_false in E. rewrite (delete_absent c (busy w) E). reflexivity.
Qed.

Section OnError.
Variables (c : ref) (w : World).

Lemma on_error_available : available (on_error c w) = JSSet.delete c (available w).
Proof. rewrite on_error_eq. cbv zeta. by case_match. Qed.

Lemma on_error_busy : busy (on_error c w) = JSSet.delete c (busy w).
Proof. rewrite on_error_eq. cbv zeta. by case_match. Qed.

Lemma on_error_tasks : tasks (on_error c w) = tasks w.
Proof. rewrite on_error_eq. cbv zeta. by case_match. Qed.

Lemma on_error_out :
  out (on_error c w) = out w ++ [ConsoleError (LogConnectionError c)].
Proof. rewrite on_error_eq. cbv zeta. by case_match. Qed.

Lemma on_error_errors : errors (counters (on_error c w)) = S (errors (counters w)).
Proof. rewrite on_error_eq. cbv zeta. by case_match. Qed.

Lemma on_error_heap :
  heap (on_error c w) =
    alter (set_isHealthy false) c (heap w) ++
      (if (Z.of_nat (total_without c w) <? minConnections (this w))%Z
       then [mkClient None None None false true (Some KReplace)] else []).
Proof.
  rewrite on_error_eq. cbv zeta. case_match; simpl; [done|]. by rewrite app_nil_r.
Qed.

Lemma on_error_client cl :
  heap w !! c = Some cl → heap (on_error c w) !! c = Some (set_isHealthy false cl).
Proof.
  intros Hc. rewrite on_error_heap.
  by rewrite (lookup_alter_app_Some _ _ _ _ _ _ Hc), decide_True.
Qed.
End OnError.

Lemma connect_after_error c w cl k now w2 :
  heap w !! c = Some cl → connecting cl = Some k →
  step (ConnectOk c now) (on_error c w) = Some w2 →
  c ∈ available w2 ∧ (isHealthy <$> heap w2 !! c) = Some (Some true).
Proof.
  intros Hc Hk Hok. pose proof (on_error_client c w cl Hc) as Hc1.
  simpl in Hok. rewrite Hc1 in Hok. simpl in Hok. rewrite Hk in Hok.
  simpl in Hok. injection Hok as <-.
  assert (∀ w0, available (created_for k c w0) = available w0 ∧
                heap (created_for k c w0) = heap w0) as Hfor.
  { intros w0. unfold created_for. destruct k; [|done|done]. by repeat case_match. }
  destruct (Hfor (createConnection_connected c now
                    (connect_settled true true c (on_error c w)))) as (-> & ->).
  unfold_world. rewrite list_alter_alter_eq. split.
  - apply in_add. by left.
  - by rewrite (lookup_alter_Some _ _ _ _ _ Hc1), decide_True.
Qed.

(** C8, as the code has it. An ['error'] event of a client marks it as
    not healthy, takes it out of [busy] and of [available], leaves the
    other clients where they are, adds one to [errors] and writes one
    line with [console.error]; the pool emits nothing. A client whose
    [connect()] has settled, as every client in [available] or [busy] of
    a reachable state has, is then in [available] in no later state,
    whatever happens (a release included). A client that is still
    connecting is in [available] in no later state before its own
    [connect()] fulfils; when it does, the client is marked healthy and
    put in [available]. If the total after the removal is below
    [minConnections], one [createConnection()] is started, and only one;
    otherwise none. When such a replacement fails to connect, two lines
    are written with [console.error] and nothing else changes: the pool
    emits nothing and no new creation is started. *)
Theorem connection_error_retires (w w' : World) (c : ref) :
  step (ClientError c) w = Some w' →
  (isHealthy <$> heap w' !! c) = Some (Some false) ∧
  (c ∉ busy w') ∧ (c ∉ available w') ∧
  (∀ d, d ≠ c → (d ∈ available w' ↔ d ∈ available w) ∧ (d ∈ busy w' ↔ d ∈ busy w)) ∧
  errors (counters w') = S (errors (counters w)) ∧
  out w' = out w ++ [ConsoleError (LogConnectionError c)] ∧
  (∀ es w'', Forall (λ e, ∀ now, e ≠ ConnectOk c now) es →
     run es w' = Some w'' → c ∉ available w'') ∧
  (settled c w → ∀ es w'', run es w' = Some w'' → c ∉ available w'') ∧
  (reachable w → c ∈ available w ∨ c ∈ busy w → settled c w) ∧
  (∀ cl k now w2, heap w !! c = Some cl → connecting cl = Some k →
     step (ConnectOk c now) w' = Some w2 →
     c ∈ available w2 ∧ (isHealthy <$> heap w2 !! c) = Some (Some true)) ∧
  tasks w' = tasks w ∧
  heap w' =
    alter (set_isHealthy false) c (heap w) ++
      (if (Z.of_nat (total_without c w) <? minConnections (this w))%Z
       then [mkClient None None None false true (Some KReplace)] else []) ∧
  (∀ v v' r cl, heap v !! r = Some cl → connecting cl = Some KReplace →
     step (ConnectFail r) v = Some v' →
     out v' = out v ++ [ConsoleError (LogCreateFailed r); ConsoleError LogReplacementFailed] ∧
     this v' = this v ∧ tasks v' = tasks v ∧ length (heap v') = length (heap v) ∧
     (connecting <$> heap v' !! r) = Some None).
Proof.
  intros Hstep. simpl in Hstep. case_bool_decide as Hlt; [|done].
  injection Hstep as <-.
  destruct (lookup_lt_is_Some_2 _ _ Hlt) as [cl Hcl].
  pose proof (on_error_client c w cl Hcl) as Hcl'.
  assert (Hout : c ∉ available (on_error c w)).
  { rewrite on_error_available. apply not_in_delete. }
  split_and!.
  - by rewrite Hcl'.
  - rewrite on_error_busy. apply not_in_delete.
  - exact Hout.
  - intros d Hd. rewrite on_error_available, on_error_busy, !in_delete. tauto.
  - apply on_error_errors.
  - apply on_error_out.
  - intros es w'' Hes Hrun.
    eapply unhealthy_out_run; [exact Hes|exact Hrun| | |exact Hout].
    + by eapply lookup_lt_Some.
    + unfold healthy. by rewrite Hcl'.
  - intros (cl0 & Hc0 & Hs0) es w'' Hrun.
    eapply retired_out_run; [exact Hrun| |exact Hout].
    exists (set_isHealthy false cl). split_and!; [done| |done].
    simpl. congruence.
  - intros Hreach Hin. apply registered_settled.
    by apply (reachable_tracked_registered w Hreach).
  - intros cl0 k now w2 Hc0 Hk Hok. by eapply connect_after_error.
  - apply on_error_tasks.
  - apply on_error_heap.
  - intros v v' r cl0 Hr Hk Hv. simpl in Hv. rewrite Hr in Hv. simpl in Hv.
    rewrite Hk in Hv. simpl in Hv. injection Hv as <-. unfold_world.
    rewrite length_alter, (lookup_alter_Some _ _ _ _ _ Hr), decide_True by done.
    rewrite <- app_assoc. done.
Qed.

Lemma connection_error_retires_witness :
  step (ClientError 0) (world_after (started ++ [Acquire 2])) =
    Some (world_after (started ++ [Acquire 2; ClientError 0])) ∧
  errors (counters (world_after (started ++ [Acquire 2; ClientError 0]))) =
    S (errors (counters (world_after (started ++ [Acquire 2])))) ∧
  ¬ 0 ∈ available (world_after (started ++ [Acquire 2; ClientError 0])).
Proof.
  assert (H : step (ClientError 0) (world_after (started ++ [Acquire 2])) =
    Some (world_after (started ++ [Acquire 2; ClientError 0]))).
  { vm_compute. reflexivity. }
  split; [exact H|].
  destruct (connection_error_retires _ _ _ H) as (_ & _ & Ha & _ & He & _).
  split; [exact He|exact Ha].
Defined.

(** C8 as stated fails: client 0 signals an error while it is connecting;
    it is marked as not healthy and a replacement is started. Its
    [connect()] then fulfils, and the client is marked healthy and put in
    [available]. The replacement fails to connect: three lines have been
    written with [console.error], and the pool has emitted no
    ['error']. *)
Lemma error_signal_on_connecting_handle :
  ∃ w,
    run [ClientError 0; ConnectOk 0 1; ConnectFail 2] (constructor options_3_2) = Some w ∧
    available w = [0] ∧ busy w = [] ∧
    (isHealthy <$> heap w !! 0) = Some (Some true) ∧
    errors (counters w) = 1 ∧
    out w = [ConsoleError (LogConnectionError 0); ConsoleError (LogCreateFailed 2);
             ConsoleError LogReplacementFailed].
Proof. eexists. split_and!; vm_compute; reflexivity. Qed.

(** ** Acquire *)

(** C9. A step adds one to [acquired] exactly when it is a call of
    [acquireConnection()] on a pool that is not shutting down, whatever
    becomes of the call; no step takes anything from it. The failure of
    the creation and the timeout are later steps, which leave [acquired]
    as it is. So [acquired] counts attempts: in the first run below the
    only attempt fails on its creation, in the second the fourth attempt
    times out, and [acquired] exceeds the number of connections handed
    out. *)
Theorem acquired_counts_attempts :
  (∀ e w w', step e w = Some w' →
     acquired (counters w') =
       acquired (counters w) +
         (if is_acquire e && negb (isShuttingDown (this w)) then 1 else 0)) ∧
  (∀ now w, isShuttingDown (this w) = false →
     counters (acquireConnection now w) ≠ counters w) ∧
  (∃ w, run [Acquire 1; ConnectFail 2; AcquireSettle 1] (constructor options_3_2) = Some w ∧
        out w = [ConsoleError (LogCreateFailed 2); AcquireThrew CreateFailed] ∧
        acquired (counters w) = 1 ∧ handed_out w = 0) ∧
  (∃ w, run (started ++ [Acquire 2; Acquire 2; Acquire 2; ConnectOk 2 3; AcquireSettle 1;
                         Acquire 4; Timeout 2])
            (constructor options_3_2) = Some w ∧
        out w = [EmitReady; AcquireReturned 0; AcquireReturned 1; AcquireReturned 2;
                 AcquireThrew WaitTimeout] ∧
        acquired (counters w) = 4 ∧ handed_out w = 3).
Proof.
  split_and!.
  - apply step_acquired.
  - intros now w Hs Heq.
    pose proof (step_acquired (Acquire now) w _ eq_refl) as H.
    rewrite Heq, Hs in H. simpl in H. lia.
  - eexists. split_and!; vm_compute; reflexivity.
  - eexists. split_and!; vm_compute; reflexivity.
Qed.

Lemma acquired_counts_attempts_witness :
  step (Acquire 1) (constructor options_3_2) =
    Some (world_after [Acquire 1]) ∧
  acquired (counters (world_after [Acquire 1])) = 1.
Proof.
  assert (H : step (Acquire 1) (constructor options_3_2) = Some (world_after [Acquire 1])).
  { vm_compute. reflexivity. }
  split; [exact H|].
  rewrite (proj1 acquired_counts_attempts _ _ _ H). vm_compute. reflexivity.
Defined.

(** How strategy 2 goes. In strategy 2 [acquireConnection()] starts a
    creation and waits. When [connect()] fulfils, [createConnection()]
    puts the new client in [available] and returns, and nothing has been
    handed to the caller yet; [acquireConnection()] resumes in a later
    step, where it takes the client out of [available], puts it in [busy]
    and returns it. *)
Theorem grow_passes_through_available :
  (∀ now w, isShuttingDown (this w) = false → available w = [] →
     (Z.of_nat (getTotalConnections w) < maxConnections (this w))%Z →
     acquireConnection now w = createConnection KAcquire (incr_acquired w)) ∧
  (∀ c now w w1 cl, heap w !! c = Some cl → connecting cl = Some KAcquire →
     step (ConnectOk c now) w = Some w1 →
     c ∈ available w1 ∧ busy w1 = busy w ∧
     tasks w1 = tasks w ++ [TAcquireResume c] ∧ out w1 = out w) ∧
  (∀ i c w w2, tasks w !! i = Some (TAcquireResume c) →
     step (AcquireSettle i) w = Some w2 →
     c ∈ busy w2 ∧ (c ∉ available w2) ∧ out w2 = out w ++ [AcquireReturned c]).
Proof.
  split_and!.
  - intros now w Hs Ha Hlt. unfold acquireConnection. rewrite Hs.
    change (available (incr_acquired w)) with (available w). rewrite Ha. simpl.
    change (getTotalConnections (incr_acquired w)) with (getTotalConnections w).
    apply Z.ltb_lt in Hlt. by rewrite Hlt.
  - intros c now w w1 cl Hc Hk Hstep. simpl in Hstep. rewrite Hc in Hstep.
    simpl in Hstep. rewrite Hk in Hstep. simpl in Hstep. injection Hstep as <-.
    simpl. split_and!; try done. rewrite in_add. by left.
  - intros i c w w2 Hi Hstep. simpl in Hstep. rewrite Hi in Hstep.
    injection Hstep as <-. simpl. split_and!; try done.
    + rewrite in_add. by left.
    + apply not_in_delete.
Qed.

Lemma grow_passes_through_available_witness :
  tasks (world_after (started ++ [Acquire 2; Acquire 2; Acquire 2; ConnectOk 2 3])) !! 1 =
    Some (TAcquireResume 2) ∧
  step (AcquireSettle 1)
       (world_after (started ++ [Acquire 2; Acquire 2; Acquire 2; ConnectOk 2 3])) =
    Some (world_after (started ++ [Acquire 2; Acquire 2; Acquire 2; ConnectOk 2 3;
                                   AcquireSettle 1])) ∧
  2 ∈ busy (world_after (started ++ [Acquire 2; Acquire 2; Acquire 2; ConnectOk 2 3;
                                     AcquireSettle 1])).
Proof.
  assert (Ht : tasks (world_after (started ++ [Acquire 2; Acquire 2; Acquire 2; ConnectOk 2 3])) !! 1 =
    Some (TAcquireResume 2)) by (vm_compute; reflexivity).
  assert (Hs : step (AcquireSettle 1)
       (world_after (started ++ [Acquire 2; Acquire 2; Acquire 2; ConnectOk 2 3])) =
    Some (world_after (started ++ [Acquire 2; Acquire 2; Acquire 2; ConnectOk 2 3;
                                   AcquireSettle 1]))) by (vm_compute; reflexivity).
  split_and!; [exact Ht|exact Hs|].
  destruct grow_passes_through_available as (_ & _ & H).
  exact (proj1 (H _ _ _ _ Ht Hs)).
Defined.


(** [acquireConnection()] starts a creation only on a pool that is not
    shutting down, has no available client and holds fewer clients than
    [maxConnections] at the time of the call. *)
Lemma acquire_creates_below_max now w :
  length (heap (acquireConnection now w)) ≠ length (heap w) →
  isShuttingDown (this w) = false ∧ available w = [] ∧
  (Z.of_nat (getTotalConnections w) < maxConnections (this w))%Z.
Proof.
  unfold acquireConnection. destruct (isShuttingDown (this w)); [done|].
  change (available (incr_acquired w)) with (available w).
  change (getTotalConnections (incr_acquired w)) with (getTotalConnections w).
  destruct (available w) as [|c l] eqn:Ha; simpl.
  - destruct (Z.ltb_spec (Z.of_nat (getTotalConnections w)) (maxConnections (this w)));
      [done|]. simpl. done.
  - rewrite length_alter. done.
Qed.

(** C2 fails on the code: with [maxConnections = 3] and two clients busy,
    two calls of [acquireConnection()] that overlap both find the total
    below the maximum and both create a connection; when both have
    returned the pool holds four. *)
Lemma overlapping_grow_exceeds_max :
  ∃ w,
    run (started ++ [Acquire 2; Acquire 2; Acquire 3; Acquire 3;
                     ConnectOk 2 4; AcquireSettle 1; ConnectOk 3 4; AcquireSettle 2])
        (constructor options_3_2) = Some w ∧
    maxConnections (this w) = 3%Z ∧
    tasks w = [TDone; TDone; TDone] ∧
    available w = [] ∧ busy w = [0; 1; 2; 3] ∧
    getTotalConnections w = 4.
Proof. eexists. split_and!; vm_compute; reflexivity. Qed.

(** * More about the pool *)

(** ** Connections the pool has let go of *)

Lemma let_go_step e w w' c : step e w = Some w' → let_go c w → let_go c w'.
Proof.
  intros He (Hs & Ha & Hb & Ht). split_and!.
  - by eapply settled_step.
  - intros Hin.
    destruct (step_available _ _ _ _ He Hin)
      as [?|[(now & cl & k & _ & Hc & Hk)|(_ & ? & _)]]; [done| |done].
    destruct Hs as (cl' & Hc' & Hs). congruence.
  - intros Hin.
    destruct (step_busy _ _ _ _ He Hin) as [?|[?|(i & _ & Hi)]]; [done|done|].
    by apply Ht in Hi.
  - intros i Hi.
    destruct (step_tasks_resume _ _ _ _ _ He Hi) as [Hold|(now & cl & _ & Hc & Hk)].
    + by apply Ht in Hold.
    + destruct Hs as (cl' & Hc' & Hs). congruence.
Qed.

Lemma let_go_run es w w' c : run es w = Some w' → let_go c w → let_go c w'.
Proof.
  intros Hrun H. apply (run_invariant (let_go c)) with es w; [|done|done].
  intros. by eapply let_go_step.
Qed.

(** X1. The ['end'] event of a client only takes it out of the two sets:
    the heap, the tasks, the counters and the output stay as they are
    (nothing is closed, counted or replaced) and the other clients stay
    where they are.  If its [connect()] has settled and no
    [acquireConnection()] is about to resume with it, the client is in
    neither set in any later state. *)
Theorem ended_connection_is_dropped (w w' : World) (c : ref) :
  step (ClientEnd c) w = Some w' →
  settled c w → (∀ i, tasks w !! i ≠ Some (TAcquireResume c)) →
  (heap w' = heap w ∧ tasks w' = tasks w ∧ counters w' = counters w ∧ out w' = out w) ∧
  (∀ d, d ≠ c → (d ∈ available w' ↔ d ∈ available w) ∧ (d ∈ busy w' ↔ d ∈ busy w)) ∧
  (∀ es w'', run es w' = Some w'' → (c ∉ available w'') ∧ (c ∉ busy w'')).
Proof.
  intros Hstep Hs Ht. simpl in Hstep. case_bool_decide; [|done].
  injection Hstep as <-. split_and!; try done.
  - intros d Hd. simpl. rewrite !in_delete. tauto.
  - intros es w'' Hrun.
    assert (let_go c (removeConnection c w)) as Hgo.
    { split_and!; [done| | |done]; simpl; apply not_in_delete. }
    destruct (let_go_run _ _ _ _ Hrun Hgo) as (_ & ? & ? & _). done.
Qed.

Lemma ended_connection_is_dropped_witness :
  settled 0 (world_after (started ++ [Acquire 2])) ∧
  (0 ∉ available (world_after (started ++ [Acquire 2; ClientEnd 0; Release (Some 0)]))) ∧
  (0 ∉ busy (world_after (started ++ [Acquire 2; ClientEnd 0; Release (Some 0)]))).
Proof.
  assert (Hs : settled 0 (world_after (started ++ [Acquire 2]))).
  { eexists. split; vm_compute; reflexivity. }
  assert (Ht : ∀ i, tasks (world_after (started ++ [Acquire 2])) !! i ≠
                    Some (TAcquireResume 0)).
  { intros [|i]; vm_compute; congruence. }
  split; [exact Hs|].
  refine (proj2 (proj2 (ended_connection_is_dropped
            (world_after (started ++ [Acquire 2]))
            (world_after (started ++ [Acquire 2; ClientEnd 0])) 0 _ Hs Ht))
            [Release (Some 0)] _ _); vm_compute; reflexivity.
Defined.

(** X2. When [connect()] rejects, [createConnection()] only logs and
    throws again: the sets and the counters are unchanged, no client
    object is added, and the client is in neither set in any later
    state. *)
Theorem failed_creation_is_never_tracked (w w' : World) (c : ref) :
  reachable w → step (ConnectFail c) w = Some w' →
  (available w' = available w ∧ busy w' = busy w ∧ counters w' = counters w ∧
   length (heap w') = length (heap w)) ∧
  (∀ es w'', run es w' = Some w'' → (c ∉ available w'') ∧ (c ∉ busy w'')).
Proof.
  intros Hreach Hstep.
  pose proof (reachable_tracked_registered w Hreach) as (Hsets & Hres & _).
  assert (Hgo : let_go c w').
  { pose proof Hstep as Hstep'. simpl in Hstep.
    destruct (heap w !! c) as [cl|] eqn:Hc; [|done]. simpl in Hstep.
    destruct (connecting cl) as [k|] eqn:Hk; [|done].
    assert (Hnot : ¬ registered c w).
    { intros (cl' & Hc' & Hs & _). congruence. }
    assert (Hgo0 : (c ∉ available w') ∧ (c ∉ busy w') ∧
                   ∀ i, tasks w' !! i ≠ Some (TAcquireResume c)).
    { split_and!.
      - intros Hin. destruct (step_available _ _ _ _ Hstep' Hin)
          as [?|[(? & ? & ? & ? & _)|(? & _)]]; [|done|done].
        apply Hnot, Hsets. by left.
      - intros Hin. destruct (step_busy _ _ _ _ Hstep' Hin)
          as [?|[?|(? & ? & _)]]; [| |done].
        + apply Hnot, Hsets. by right.
        + apply Hnot, Hsets. by left.
      - intros i Hi. destruct (step_tasks_resume _ _ _ _ _ Hstep' Hi)
          as [?|(? & ? & ? & _)]; [|done].
        by eapply Hnot, Hres. }
    destruct Hgo0 as (? & ? & ?). split_and!; try done.
    simpl in Hstep. injection Hstep as <-.
    assert (Hheap : heap (create_failed_for k c
                      (createConnection_failed c (connect_settled false false c w))) =
                    alter (λ cl, set_handle false false (set_connecting None cl)) c (heap w)).
    { destruct k; simpl; repeat case_match; reflexivity. }
    unfold settled. rewrite Hheap.
    rewrite (lookup_alter_Some _ _ _ _ _ Hc), decide_True by done.
    eexists; (split; [reflexivity|done]). }
  split.
  - simpl in Hstep. destruct (heap w !! c) as [cl|] eqn:Hc; [|done]. simpl in Hstep.
    destruct (connecting cl) as [k|] eqn:Hk; [|done]. simpl in Hstep.
    injection Hstep as <-.
    destruct k; unfold_world; repeat case_match; simpl;
      (split_and!; [done|done|done|by rewrite length_alter]).
  - intros es w'' Hrun.
    destruct (let_go_run _ _ _ _ Hrun Hgo) as (_ & ? & ? & _). done.
Qed.

Lemma failed_creation_is_never_tracked_witness :
  reachable (world_after (started ++ [Acquire 2; Acquire 2; Acquire 2])) ∧
  (2 ∉ available (world_after (started ++ [Acquire 2; Acquire 2; Acquire 2;
                                           ConnectFail 2; AcquireSettle 1;
                                           Release (Some 2)]))) ∧
  (2 ∉ busy (world_after (started ++ [Acquire 2; Acquire 2; Acquire 2;
                                      ConnectFail 2; AcquireSettle 1;
                                      Release (Some 2)]))).
Proof.
  assert (Hr : reachable (world_after (started ++ [Acquire 2; Acquire 2; Acquire 2]))).
  { exists options_3_2, (started ++ [Acquire 2; Acquire 2; Acquire 2]).
    vm_compute. reflexivity. }
  split; [exact Hr|].
  refine (proj2 (failed_creation_is_never_tracked
            (world_after (started ++ [Acquire 2; Acquire 2; Acquire 2]))
            (world_after (started ++ [Acquire 2; Acquire 2; Acquire 2; ConnectFail 2]))
            2 Hr _)
            [AcquireSettle 1; Release (Some 2)] _ _); vm_compute; reflexivity.
Defined.

(** X3. After [destroyConnection(client)] has run up to its [await], the
    client is in neither set, and in neither set in any later state,
    whatever happens then: a release of it, the settlement of its
    [quit()], its events. *)
Theorem destroyed_connection_stays_out (w : World) (c : ref) :
  settled c w → (∀ i, tasks w !! i ≠ Some (TAcquireResume c)) →
  ∀ es w', run es (destroyConnection c w).1 = Some w' →
    (c ∉ available w') ∧ (c ∉ busy w').
Proof.
  intros (cl & Hc & Hs) Ht es w' Hrun.
  assert (let_go c (destroyConnection c w).1) as Hgo.
  { split_and!.
    - exists cl. by rewrite destroy_heap.
    - rewrite destroy_available. apply not_in_delete.
    - rewrite destroy_busy. apply not_in_delete.
    - intros i. rewrite destroy_tasks. case_match; [|done].
      intros [?|[_ Hq]]%lookup_app_Some; [by eapply Ht|].
      by apply list_lookup_singleton_Some in Hq as [_ ?]. }
  destruct (let_go_run _ _ _ _ Hrun Hgo) as (_ & ? & ? & _). done.
Qed.

Lemma destroyed_connection_stays_out_witness :
  settled 0 (world_after (started ++ [Acquire 2])) ∧
  (0 ∉ busy (default (world_after [])
               (run [QuitOk 1; Release (Some 0)]
                  (destroyConnection 0 (world_after (started ++ [Acquire 2]))).1))).
Proof.
  assert (Hs : settled 0 (world_after (started ++ [Acquire 2]))).
  { eexists. split; vm_compute; reflexivity. }
  assert (Ht : ∀ i, tasks (world_after (started ++ [Acquire 2])) !! i ≠
                    Some (TAcquireResume 0)).
  { intros [|i]; vm_compute; congruence. }
  split; [exact Hs|].
  refine (proj2 (destroyed_connection_stays_out
            (world_after (started ++ [Acquire 2])) 0 Hs Ht
            [QuitOk 1; Release (Some 0)] _ _)).
  vm_compute. reflexivity.
Defined.

(** ** What a step shows and counts *)

Lemma step_out e w w' :
  step e w = Some w' →
  ∃ l, out w' = out w ++ l ∧
       ∀ c, AcquireReturned c ∈ l → c ∈ busy w' ∧ c ∉ available w'.
Proof.
  intros Hstep. step_cases e Hstep.
  all: rewrite ?shutdown_out, ?sweep_out, ?shutdown_busy, ?shutdown_available.
  all: unfold_world.
  all: rewrite ?destroy_out.
  all: unfold_world.
  all: rewrite <- ?app_assoc.
  all: first [ eexists; split; [reflexivity|]
             | exists []; split; [by rewrite app_nil_r|] ].
  all: intros d Hd; simpl in Hd.
  all: repeat match goal with
       | H : _ ∈ _ :: _ |- _ => apply elem_of_cons in H as [H|H]; simplify_eq
       | H : _ ∈ [] |- _ => by apply elem_of_nil in H
       end.
  all: rewrite ?in_add, ?in_delete.
  all: split; [by left | tauto].
Qed.

(** X4. Whenever a step makes [acquireConnection()] return a client, by
    any of its three strategies, the client is in [busy] and not in
    [available] when it is returned, and it has its identifier. *)
Theorem returned_connection_is_busy (e : event) (w w' : World) (c : ref) (l : list obs) :
  reachable w → step e w = Some w' → out w' = out w ++ l →
  AcquireReturned c ∈ l →
  c ∈ busy w' ∧ (c ∉ available w') ∧ has_connectionId c (heap w') = true.
Proof.
  intros Hreach Hstep Hout Hin.
  destruct (step_out _ _ _ Hstep) as (l' & Hl' & Hbusy).
  rewrite Hl' in Hout. apply app_inv_head in Hout as ->.
  destruct (Hbusy c Hin) as [Hb Ha]. split_and!; [done|done|].
  apply registered_has_connectionId.
  apply (reachable_tracked_registered w' (reachable_step _ _ _ Hreach Hstep)).
  by right.
Qed.

Lemma returned_connection_is_busy_witness :
  reachable (world_after started) ∧
  0 ∈ busy (world_after (started ++ [Acquire 2])) ∧
  has_connectionId 0 (heap (world_after (started ++ [Acquire 2]))) = true.
Proof.
  assert (Hr : reachable (world_after started)).
  { exists options_3_2, started. vm_compute. reflexivity. }
  split; [exact Hr|].
  destruct (returned_connection_is_busy (Acquire 2) (world_after started)
              (world_after (started ++ [Acquire 2])) 0 [AcquireReturned 0] Hr)
    as (H1 & _ & H2); [vm_compute; reflexivity|vm_compute; reflexivity|by left|].
  split; [exact H1|exact H2].
Defined.

Lemma step_stats_le e w w' : step e w = Some w' → stats_le (counters w) (counters w').
Proof.
  intros Hstep. unfold stats_le. step_cases e Hstep.
  all: rewrite ?shutdown_counters, ?sweep_counters.
  all: unfold_world.
  all: rewrite ?destroy_counters.
  all: unfold_world.
  all: repeat case_match; simpl.
  all: lia.
Qed.

(** X5. No run of events makes any of the five counters smaller. *)
Theorem counters_never_decrease (es : list event) (w w' : World) :
  run es w = Some w' → stats_le (counters w) (counters w').
Proof.
  revert w. induction es as [|e es IH]; intros w; simpl.
  - intros [= <-]. unfold stats_le. lia.
  - destruct (step e w) as [w1|] eqn:E; simpl; [|done].
    intros Hrun. pose proof (step_stats_le _ _ _ E). pose proof (IH _ Hrun).
    unfold stats_le in *. lia.
Qed.

Lemma counters_never_decrease_witness :
  run [Acquire 2; Release (Some 0); Shutdown] (world_after started) =
    Some (world_after (started ++ [Acquire 2; Release (Some 0); Shutdown])) ∧
  stats_le (counters (world_after started))
    (counters (world_after (started ++ [Acquire 2; Release (Some 0); Shutdown]))).
Proof.
  assert (Hr : run [Acquire 2; Release (Some 0); Shutdown] (world_after started) =
    Some (world_after (started ++ [Acquire 2; Release (Some 0); Shutdown]))).
  { vm_compute. reflexivity. }
  split; [exact Hr|]. exact (counters_never_decrease _ _ _ Hr).
Defined.

Lemma count_obs_app (p : obs → bool) (l k : list obs) :
  length (filter (λ o, p o = true) (l ++ k)) =
    length (filter (λ o, p o = true) l) + length (filter (λ o, p o = true) k).
Proof. by rewrite filter_app, length_app. Qed.

Lemma step_emitted e w w' :
  step e w = Some w' → is_init_settle e = false →
  emitted is_emit_ready w' = emitted is_emit_ready w ∧
  emitted is_emit_error w' = emitted is_emit_error w.
Proof.
  intros Hstep He. unfold emitted. step_cases e Hstep.
  all: try discriminate He.
  all: rewrite ?shutdown_out, ?sweep_out.
  all: unfold_world.
  all: rewrite ?destroy_out.
  all: unfold_world.
  all: rewrite ?count_obs_app.
  all: try (simpl; lia).
  all: try (destruct k; simpl; repeat case_match; simpl;
            rewrite ?count_obs_app; simpl; lia).
  all: try (destruct timedOut; simpl; rewrite ?count_obs_app; simpl; lia).
Qed.

(** ** The waiters of strategy 3 *)

Ltac task_lookup i Hi :=
  lazymatch goal with
  | |- context [(<[?j:=?t]> (tasks ?w) ++ ?k) !! i] =>
      rewrite (lookup_app_l (<[j:=t]> (tasks w)) k i)
        by (rewrite length_insert; by eapply lookup_lt_Some);
      rewrite (list_lookup_insert (tasks w) j i t)
  | |- context [(tasks ?w ++ ?k) !! i] =>
      rewrite (lookup_app_l (tasks w) k i) by (by eapply lookup_lt_Some)
  | |- context [<[?j:=?t]> (tasks ?w) !! i] =>
      rewrite (list_lookup_insert (tasks w) j i t)
  | |- _ => idtac
  end.

(** X6. An [acquireConnection()] of strategy 3 that waits is ended by
    one thing only: a poll of its own that finds a client available; it
    then moves the first available client to [busy].  Its timeout
    rejects the promise and leaves the polling on, so that a waiter that
    has timed out still takes a client at its next successful poll, and
    returns it to nobody. *)
Theorem waiting_acquire_ends_only_by_taking e w w' i b :
  tasks w !! i = Some (TWait b) → step e w = Some w' →
  (∃ b', tasks w' !! i = Some (TWait b') ∧ (b = true → b' = true)) ∨
  (∃ now c, e = Poll i now ∧ JSSet.first (available w) = Some c ∧
            tasks w' !! i = Some TDone ∧ c ∈ busy w' ∧
            out w' = out w ++ (if b then [] else [AcquireReturned c])).
Proof.
  intros Hi Hstep.
  step_cases e Hstep.
  all: rewrite ?sweep_tasks.
  all: try (destruct (shutdown_tasks w) as [qs ->]).
  all: unfold_world.
  all: rewrite ?destroy_tasks.
  all: unfold_world.
  all: rewrite <- ?app_assoc.
  all: repeat case_match.
  all: task_lookup i Hi.
  all: repeat (case_decide; split_hyps; simplify_eq).
  all: same_lookup.
  all: try (left; eexists; split; [first [eassumption | reflexivity] | done]).
  all: right; eexists _, _; split_and!; rewrite ?app_nil_r; try done; apply in_add; by left.
Qed.

Lemma waiting_acquire_ends_only_by_taking_witness :
  tasks (world_after (started ++ [Acquire 2; Acquire 2; Acquire 2; ConnectOk 2 3;
                                  AcquireSettle 1; Acquire 4; Timeout 2;
                                  Release (Some 0)])) !! 2 = Some (TWait true) ∧
  0 ∈ busy (world_after (started ++ [Acquire 2; Acquire 2; Acquire 2; ConnectOk 2 3;
                                     AcquireSettle 1; Acquire 4; Timeout 2;
                                     Release (Some 0); Poll 2 5])) ∧
  out (world_after (started ++ [Acquire 2; Acquire 2; Acquire 2; ConnectOk 2 3;
                                AcquireSettle 1; Acquire 4; Timeout 2;
                                Release (Some 0); Poll 2 5])) =
    out (world_after (started ++ [Acquire 2; Acquire 2; Acquire 2; ConnectOk 2 3;
                                  AcquireSettle 1; Acquire 4; Timeout 2;
                                  Release (Some 0)])) ++ [].
Proof.
  assert (Ht : tasks (world_after (started ++ [Acquire 2; Acquire 2; Acquire 2;
                 ConnectOk 2 3; AcquireSettle 1; Acquire 4; Timeout 2;
                 Release (Some 0)])) !! 2 = Some (TWait true)).
  { vm_compute. reflexivity. }
  split; [exact Ht|].
  destruct (waiting_acquire_ends_only_by_taking (Poll 2 5) _
              (world_after (started ++ [Acquire 2; Acquire 2; Acquire 2; ConnectOk 2 3;
                                        AcquireSettle 1; Acquire 4; Timeout 2;
                                        Release (Some 0); Poll 2 5])) 2 true Ht)
    as [(b' & Hb & _)|(now & c & _ & Hf & _ & Hbusy & Hout)].
  - vm_compute. reflexivity.
  - vm_compute in Hb. discriminate Hb.
  - assert (c = 0) as -> by (vm_compute in Hf; congruence).
    split; [exact Hbusy|exact Hout].
Defined.

(** ** Counting clients of the heap *)

Lemma count_alter (p : Client → bool) (f : Client → Client) c (h : list Client) cl :
  h !! c = Some cl →
  length (filter (λ cl, p cl = true) (alter f c h)) + (if p cl then 1 else 0) =
  length (filter (λ cl, p cl = true) h) + (if p (f cl) then 1 else 0).
Proof.
  revert c. induction h as [|x h IH]; intros [|c] Hc; simplify_eq/=.
  - rewrite !filter_cons. repeat case_decide; repeat case_match; simpl; congruence || lia.
  - specialize (IH c Hc). rewrite !filter_cons. case_decide; simpl; lia.
Qed.

Lemma count_alter_same (p : Client → bool) (f : Client → Client) c (h : list Client) :
  (∀ cl, p (f cl) = p cl) →
  length (filter (λ cl, p cl = true) (alter f c h)) =
  length (filter (λ cl, p cl = true) h).
Proof.
  intros Hf. revert c. induction h as [|x h IH]; intros [|c]; try done.
  - change (alter f 0 (x :: h)) with (f x :: h). rewrite !filter_cons, Hf. by case_decide.
  - change (alter f (S c) (x :: h)) with (x :: alter f c h).
    rewrite !filter_cons. case_decide; simpl; by rewrite IH.
Qed.

Lemma count_app (p : Client → bool) (h k : list Client) :
  length (filter (λ cl, p cl = true) (h ++ k)) =
  length (filter (λ cl, p cl = true) h) + length (filter (λ cl, p cl = true) k).
Proof. by rewrite filter_app, length_app. Qed.

(** ** Initialization *)

Lemma step_pending e w w' :
  step e w = Some w' →
  pending_init w' + (if init_event e w then 1 else 0) = pending_init w.
Proof.
  intros Hstep. unfold pending_init. step_cases e Hstep.
  all: rewrite ?shutdown_heap, ?sweep_heap.
  all: unfold_world.
  all: rewrite ?destroy_heap.
  all: unfold_world.
  all: rewrite ?list_alter_alter_eq.
  all: rewrite ?count_app; simpl.
  all: try (rewrite count_alter_same by done).
  all: try lia.
  all: match goal with
       | H : heap ?w !! ?c = Some ?cl |- context [alter ?f ?c (heap ?w)] =>
           pose proof (count_alter awaits_init f c (heap w) cl H) as Hcount
       end.
  all: unfold awaits_init in *; simpl in *.
  all: repeat match goal with
       | H : heap ?w !! ?c = Some _, H' : context [heap ?w !! ?c] |- _ =>
           rewrite H in H'
       | H : connecting ?cl = _, H' : context [connecting ?cl] |- _ =>
           rewrite H in H'
       end.
  all: simplify_eq; try lia.
Qed.

Lemma step_init_task e w w' t :
  tasks w !! 0 = Some t → init_kind t = true → step e w = Some w' →
  tasks w' !! 0 = Some (init_next e w t) ∧
  (is_init_settle e = true →
     (e = InitSettle ∧ t = TInit 0 ∧ out w' = out w ++ [EmitReady]) ∨
     (e = InitSettle ∧ t = TInitRejected ∧
      out w' = out w ++ [ConsoleError LogInitFailed; EmitError]) ∨
     (e = ReadyListenerThrows ∧ t = TInit 0 ∧
      out w' = out w ++ [EmitReady; ConsoleError LogInitFailed; EmitError])).
Proof.
  intros Ht Hk Hstep.
  step_cases e Hstep.
  all: rewrite ?sweep_tasks.
  all: try (destruct (shutdown_tasks w) as [qs ->]).
  all: unfold_world.
  all: rewrite ?destroy_tasks.
  all: unfold_world.
  all: rewrite <- ?app_assoc.
  all: repeat case_match.
  all: task_lookup 0 Ht.
  all: repeat (case_decide; split_hyps; simplify_eq).
  all: try match goal with
       | H : ¬ (_ ∧ _ < length _) |- _ =>
           exfalso; apply H; split; [done | by eapply lookup_lt_Some]
       end.
  all: same_lookup.
  all: unfold awaits_init in *.
  all: simplify_eq.
  all: try match goal with
       | H : connecting ?cl = Some _, H' : _ = ?b |- _ =>
           rewrite H in H'; simpl in H'; discriminate H'
       end.
  all: simplify_eq.
  all: try (split; [done | intros; simplify_eq]).
  all: try (split; [first [eassumption | reflexivity] | intros; simplify_eq]).
  all: try solve [left; split_and!; by rewrite <- ?app_assoc].
  all: try solve [right; left; split_and!; by rewrite <- ?app_assoc].
  all: try solve [right; right; split_and!; by rewrite <- ?app_assoc].
Qed.

Lemma step_created e w w' :
  step e w = Some w' →
  created (counters w') = created (counters w) + (if is_connect_ok e then 1 else 0).
Proof.
  intros Hstep. step_cases e Hstep.
  all: rewrite ?shutdown_counters, ?sweep_counters.
  all: unfold_world.
  all: rewrite ?destroy_counters.
  all: unfold_world.
  all: repeat case_match; simpl.
  all: try lia.
Qed.

Lemma step_ready e w w' :
  step e w = Some w' → is_init_settle e = false →
  EmitReady ∈ out w' → EmitReady ∈ out w.
Proof.
  intros Hstep. step_cases e Hstep.
  all: rewrite ?shutdown_out, ?sweep_out.
  all: unfold_world.
  all: rewrite ?destroy_out.
  all: unfold_world.
  all: try done.
  all: repeat case_match; simpl.
  all: rewrite ?elem_of_app, ?elem_of_cons, ?elem_of_nil.
  all: try solve [settle].
Qed.

Lemma emitted_pos (p : obs → bool) o w :
  o ∈ out w → p o = true → 0 < emitted p w.
Proof.
  intros Hin Ho. unfold emitted.
  assert (o ∈ filter (λ o, p o = true) (out w)) as Hf.
  { by rewrite list_elem_of_filter. }
  destruct (filter _ (out w)); [by apply elem_of_nil in Hf | simpl; lia].
Qed.

Lemma emitted_app (p : obs → bool) w w' l :
  out w' = out w ++ l →
  emitted p w' = emitted p w + length (filter (λ o, p o = true) l).
Proof. intros Hout. unfold emitted. by rewrite Hout, count_obs_app. Qed.

Lemma init_inv_step e w w' : init_inv w → step e w = Some w' → init_inv w'.
Proof.
  unfold init_inv. intros Hinv Hstep.
  destruct (tasks w !! 0) as [t|] eqn:Ht; [|done].
  assert (init_kind t = true) as Hk by (by destruct t).
  destruct (step_init_task _ _ _ _ Ht Hk Hstep) as [-> Hsettle].
  pose proof (step_pending _ _ _ Hstep) as Hp.
  pose proof (step_emitted _ _ _ Hstep) as Hn.
  pose proof (step_created _ _ _ Hstep) as Hc.
  pose proof (step_ready _ _ _ Hstep) as Hr.
  destruct (step_limits _ _ _ Hstep) as [_ ->]. clear Hstep.
  destruct (is_init_settle e) eqn:He.
  - clear Hn Hr.
    destruct (Hsettle eq_refl) as [(-> & -> & Hout)|[(-> & -> & Hout)|(-> & -> & Hout)]];
      simpl in *;
      rewrite (emitted_app is_emit_ready _ _ _ Hout), (emitted_app is_emit_error _ _ _ Hout);
      simpl.
    + destruct Hinv as (? & ? & ? & ?). split_and!; [lia|lia|]. intros _. lia.
    + destruct Hinv as (Hr0 & He0). split_and!; [lia|lia|].
      rewrite Hout. intros Hin. apply elem_of_app in Hin as [Hin|Hin].
      * apply (emitted_pos is_emit_ready) in Hin; [lia|done].
      * apply elem_of_cons in Hin as [?|Hin]; [done|].
        apply elem_of_cons in Hin as [?|Hin]; [done|]. by apply elem_of_nil in Hin.
    + destruct Hinv as (? & ? & ? & ?). split_and!; [lia|lia|]. intros _. lia.
  - destruct (Hn eq_refl) as [-> ->]. clear Hsettle Hn.
    destruct t as [n| | | | | | | |]; try done.
    + destruct Hinv as (? & ? & ? & ?).
      destruct e; try discriminate He; simpl in *; try (split_and!; lia).
      * destruct (match heap w !! c with Some cl => awaits_init cl | None => false end);
          [destruct n|]; split_and!; lia.
      * destruct (match heap w !! c with Some cl => awaits_init cl | None => false end);
          split_and!; lia.
    + destruct e; try discriminate He; simpl in *; try done.
      * by destruct (match heap w !! c with Some cl => awaits_init cl | None => false end).
      * by destruct (match heap w !! c with Some cl => awaits_init cl | None => false end).
    + destruct Hinv as (? & ? & Hready).
      destruct e; try discriminate He; simpl in *;
        try (split_and!; [lia|lia|]; intros Hin; specialize (Hready (Hr eq_refl Hin)); lia).
      * destruct (match heap w !! c with Some cl => awaits_init cl | None => false end);
          (split_and!; [lia|lia|]; intros Hin; specialize (Hready (Hr eq_refl Hin)); lia).
      * destruct (match heap w !! c with Some cl => awaits_init cl | None => false end);
          (split_and!; [lia|lia|]; intros Hin; specialize (Hready (Hr eq_refl Hin)); lia).
Qed.

Lemma constructor_tasks options :
  tasks (constructor options) = [TInit (Z.to_nat (js_or (opt_minConnections options) 2))].
Proof. unfold constructor, initializePool. simpl. by rewrite iter_create_tasks. Qed.

Lemma constructor_out options : out (constructor options) = [].
Proof. unfold constructor, initializePool. simpl. by rewrite iter_create_out. Qed.

Lemma constructor_heap options :
  heap (constructor options) =
    replicate (Z.to_nat (js_or (opt_minConnections options) 2))
      (mkClient None None None false true (Some KInit)).
Proof. unfold constructor, initializePool. simpl. by rewrite iter_create_heap. Qed.

Lemma count_replicate n :
  length (filter (λ cl, awaits_init cl = true)
            (replicate n (mkClient None None None false true (Some KInit)))) = n.
Proof.
  induction n as [|n IH]; [done|]. cbn [replicate]. rewrite filter_cons.
  rewrite decide_True by done. simpl. by rewrite IH.
Qed.

Lemma init_inv_constructor options : init_inv (constructor options).
Proof.
  unfold init_inv, pending_init, emitted.
  rewrite constructor_tasks, constructor_out, constructor_heap, constructor_this.
  simpl. rewrite count_replicate. split_and!; [done|done|done|lia].
Qed.

Lemma reachable_init_inv w : reachable w → init_inv w.
Proof.
  intros (o & es & Hrun).
  eapply (run_invariant init_inv); [|apply init_inv_constructor|done].
  intros. by eapply init_inv_step.
Qed.



(** X8. ['ready'] means that every initial creation has fulfilled: no
    initial [connect()] is pending, at least [minConnections]
    connections have been created, and [initializePool()] has ended. *)
Theorem ready_after_all_initial_connections (w : World) :
  reachable w → EmitReady ∈ out w →
  pending_init w = 0 ∧
  Z.to_nat (minConnections (this w)) ≤ created (counters w) ∧
  tasks w !! 0 = Some TDone.
Proof.
  intros Hreach Hin. pose proof (reachable_init_inv w Hreach) as Hinv.
  pose proof (emitted_pos is_emit_ready _ _ Hin eq_refl) as Hpos.
  unfold init_inv in Hinv. repeat case_match; try done; try lia.
  destruct Hinv as (_ & _ & Hready). destruct (Hready Hin). done.
Qed.

Lemma ready_after_all_initial_connections_witness :
  reachable (world_after started) ∧ EmitReady ∈ out (world_after started) ∧
  Z.to_nat (minConnections (this (world_after started))) ≤
    created (counters (world_after started)).
Proof.
  assert (Hr : reachable (world_after started)).
  { exists options_3_2, started. vm_compute. reflexivity. }
  assert (Hin : EmitReady ∈ out (world_after started)).
  { vm_compute. left. }
  split_and!; [exact Hr|exact Hin|].
  exact (proj1 (proj2 (ready_after_all_initial_connections _ Hr Hin))).
Defined.

Lemma never_ready_step e w w' : never_ready w → step e w = Some w' → never_ready w'.
Proof.
  intros [Hout Ht] Hstep.
  pose proof (step_ready _ _ _ Hstep) as Hr.
  destruct Ht as [Ht|Ht].
  - destruct (step_init_task _ _ _ _ Ht eq_refl Hstep) as [Ht' Hsettle].
    destruct e; simpl in Ht', Hr; try (split; [intros Hin; by apply Hout, Hr|by left]).
    + split; [intros Hin; by apply Hout, Hr|]. left. rewrite Ht'. by case_match.
    + split; [intros Hin; by apply Hout, Hr|]. left. rewrite Ht'. by case_match.
    + destruct (Hsettle eq_refl) as [(_ & ? & _)|[(_ & _ & Ho)|(? & _)]]; [done| |done].
      split; [|by right].
      rewrite Ho. intros Hin. apply elem_of_app in Hin as [Hin|Hin]; [done|].
      apply elem_of_cons in Hin as [?|Hin]; [done|].
      apply elem_of_cons in Hin as [?|Hin]; [done|]. by apply elem_of_nil in Hin.
    + by destruct (Hsettle eq_refl) as [(? & _)|[(? & _)|(_ & ? & _)]].
  - destruct (step_init_task _ _ _ _ Ht eq_refl Hstep) as [Ht' Hsettle].
    destruct e; simpl in Ht', Hr; try (split; [intros Hin; by apply Hout, Hr|by right]).
    + split; [intros Hin; by apply Hout, Hr|]. right. rewrite Ht'. by case_match.
    + split; [intros Hin; by apply Hout, Hr|]. right. rewrite Ht'. by case_match.
    + by destruct (Hsettle eq_refl) as [(_ & ? & _)|[(_ & ? & _)|(? & _)]].
    + by destruct (Hsettle eq_refl) as [(? & _)|[(? & _)|(_ & ? & _)]].
Qed.

(** X9. When the [connect()] of an initial connection rejects, the sets
    stay as they are (the initial connections that did connect stay in
    the pool), and ['ready'] is emitted in no later state. *)
Theorem failed_initial_connection_never_ready (w w1 : World) (c : ref) :
  reachable w → init_event (ConnectFail c) w = true →
  step (ConnectFail c) w = Some w1 →
  (available w1 = available w ∧ busy w1 = busy w) ∧
  ∀ es w', run es w1 = Some w' → EmitReady ∉ out w'.
Proof.
  intros Hreach Hev Hstep.
  pose proof (reachable_init_inv w Hreach) as Hinv.
  pose proof (step_pending _ _ _ Hstep) as Hp. rewrite Hev in Hp.
  pose proof (step_ready _ _ _ Hstep eq_refl) as Hr.
  assert (never_ready w1) as Hnever.
  { unfold init_inv in Hinv.
    destruct (tasks w !! 0) as [t|] eqn:Ht; [|done].
    assert (init_kind t = true) as Hk by (by destruct t).
    destruct (step_init_task _ _ _ _ Ht Hk Hstep) as [Ht' _].
    simpl in Ht'. simpl in Hev. rewrite Hev in Ht'.
    destruct t as [n| | | | | | | |]; try done.
    - split; [|by left]. intros Hin%Hr.
      apply (emitted_pos is_emit_ready) in Hin; [lia|done].
    - split; [|by left]. intros Hin%Hr.
      apply (emitted_pos is_emit_ready) in Hin; [lia|done].
    - split; [|by right]. intros Hin%Hr.
      destruct Hinv as (_ & _ & H). destruct (H Hin). lia. }
  split.
  - clear Hnever Hr Hp. step_open Hstep; unfold_world; repeat case_match; done.
  - intros es w' Hrun.
    by destruct (run_invariant never_ready never_ready_step es w1 w' Hnever Hrun).
Qed.

Lemma failed_initial_connection_never_ready_witness :
  reachable (constructor options_3_2) ∧
  init_event (ConnectFail 0) (constructor options_3_2) = true ∧
  EmitReady ∉ out (world_after [ConnectFail 0; ConnectOk 1 1; InitSettle]).
Proof.
  assert (Hr : reachable (constructor options_3_2)).
  { exists options_3_2, []. reflexivity. }
  assert (He : init_event (ConnectFail 0) (constructor options_3_2) = true).
  { vm_compute. reflexivity. }
  split_and!; [exact Hr|exact He|].
  refine (proj2 (failed_initial_connection_never_ready _ _ 0 Hr He eq_refl)
            [ConnectOk 1 1; InitSettle] _ _).
  vm_compute. reflexivity.
Defined.

Lemma initializing_constructor options :
  initializing (Z.to_nat (minConnections (this (constructor options)))) []
    (constructor options).
Proof.
  unfold initializing.
  rewrite constructor_tasks, constructor_out, constructor_heap, constructor_this.
  simpl. rewrite length_replicate, Nat.sub_0_r. split_and!; try done.
  intros c Hc _. by apply lookup_replicate_2.
Qed.

Lemma initializing_connect n done w c now :
  initializing n done w → c < n → c ∉ done → length done < n →
  ∃ w', step (ConnectOk c now) w = Some w' ∧ initializing n (done ++ [c]) w'.
Proof.
  intros (Hlen & Hfresh & Ht & Ha & Hb & Ho & Hc) Hlt Hnew Hroom.
  pose proof (Hfresh c Hlt Hnew) as Hcl.
  simpl. rewrite Hcl. simpl. eexists. split; [reflexivity|].
  unfold created_for. unfold_world. rewrite Ht. simpl.
  destruct (n - length done) as [|k] eqn:Hk; [lia|]. simpl.
  unfold initializing. simpl. split_and!.
  - by rewrite !length_alter.
  - intros d Hd Hnd. rewrite elem_of_app, list_elem_of_singleton in Hnd.
    rewrite !list_lookup_alter_ne by naive_solver. apply Hfresh; naive_solver.
  - rewrite length_app. simpl. do 2 f_equal. lia.
  - rewrite Ha. unfold JSSet.add.
    by rewrite (proj2 (has_false c done)) by done.
  - done.
  - done.
  - rewrite Hc, length_app. simpl. lia.
Qed.

Lemma initializing_run now n rest :
  ∀ done w, initializing n done w → NoDup (done ++ rest) →
    (∀ c, c ∈ rest → c < n) → length (done ++ rest) ≤ n →
    ∃ w', run (connects now rest) w = Some w' ∧ initializing n (done ++ rest) w'.
Proof.
  induction rest as [|c rest IH]; intros done w Hinit Hnd Hlt Hlen.
  - exists w. by rewrite app_nil_r.
  - rewrite cons_middle, app_assoc in Hnd, Hlen |- *.
    assert (c ∉ done) as Hnew.
    { apply NoDup_app in Hnd as [Hnd _]. apply NoDup_app in Hnd as (_ & Hd & _).
      intros Hin. apply (Hd c Hin). by left. }
    assert (length done < n) as Hroom.
    { rewrite !length_app in Hlen. simpl in Hlen. lia. }
    destruct (initializing_connect n done w c (now c) Hinit) as (w1 & Hstep & Hinit1);
      [apply Hlt; by left|done|done|].
    destruct (IH (done ++ [c]) w1 Hinit1 Hnd) as (w' & Hrun & Hinit'); [|done|].
    { intros d Hd. apply Hlt. by right. }
    exists w'. split; [|done].
    change (connects now (c :: rest)) with (ConnectOk c (now c) :: connects now rest).
    apply run_cons_Some. eauto.
Qed.

(** X10. The initial connections may complete in any order: when all
    [minConnections] of them have connected, the pool holds them as
    available in the order of their completion, has counted them as
    created, and emits ['ready'] and nothing else.  [maxConnections]
    plays no part: with [minConnections] above it, the pool starts with
    more connections than its maximum. *)
Theorem initialization_in_any_order (options : Options) (now : ref → nat)
    (cs : list ref) :
  cs ≡ₚ seq 0 (Z.to_nat (minConnections (this (constructor options)))) →
  ∃ w, run (connects now cs ++ [InitSettle]) (constructor options) = Some w ∧
       available w = cs ∧ busy w = [] ∧
       getTotalConnections w = Z.to_nat (minConnections (this (constructor options))) ∧
       created (counters w) = Z.to_nat (minConnections (this (constructor options))) ∧
       out w = [EmitReady] ∧ tasks w = [TDone].
Proof.
  intros Hperm. set (n := Z.to_nat (minConnections (this (constructor options)))) in *.
  assert (length cs = n) as Hlen.
  { by rewrite Hperm, length_seq. }
  destruct (initializing_run now n cs [] (constructor options)) as (w1 & Hrun & Hinit).
  - apply initializing_constructor.
  - simpl. rewrite Hperm. apply NoDup_seq.
  - intros c Hc. rewrite Hperm in Hc. apply elem_of_seq in Hc. lia.
  - simpl. lia.
  - simpl in Hinit. destruct Hinit as (Hh & _ & Ht & Ha & Hb & Ho & Hc).
    rewrite Hlen, Nat.sub_diag in Ht.
    exists (emit EmitReady (set_task 0 TDone w1)). split.
    + rewrite run_app, Hrun. simpl. by rewrite Ht.
    + unfold getTotalConnections, JSSet.size. simpl.
      rewrite Ha, Hb, Ho, Hc, Ht, Hlen. simpl. split_and!; try done; lia.
Qed.

Lemma initialization_in_any_order_witness :
  [2; 0; 1] ≡ₚ seq 0 (Z.to_nat (minConnections
                 (this (constructor (mkOptions (Some 1%Z) (Some 3%Z) None None None))))) ∧
  ∃ w, run (connects (λ _, 1) [2; 0; 1] ++ [InitSettle])
           (constructor (mkOptions (Some 1%Z) (Some 3%Z) None None None)) = Some w ∧
       available w = [2; 0; 1] ∧ maxConnections (this w) = 1%Z.
Proof.
  assert (Hp : [2; 0; 1] ≡ₚ seq 0 (Z.to_nat (minConnections
             (this (constructor (mkOptions (Some 1%Z) (Some 3%Z) None None None)))))).
  { change ([2; 0; 1] ≡ₚ [0; 1; 2]). by rewrite (Permutation_cons_append [0; 1] 2). }
  split; [exact Hp|].
  destruct (initialization_in_any_order _ (λ _, 1) _ Hp) as (w & Hrun & Ha & _).
  exists w. split_and!; [exact Hrun|exact Ha|].
  vm_compute in Hrun. injection Hrun as <-. reflexivity.
Defined.

(** ** Reuse *)

Lemma healthy_alter_lastUsed now c d h :
  healthy d (alter (set_lastUsed now) c h) = healthy d h.
Proof.
  unfold healthy. rewrite list_lookup_alter.
  case_decide; [subst|done]. by destruct (h !! d).
Qed.

Lemma ready_alter_lastUsed now c d h :
  ready d (alter (set_lastUsed now) c h) = ready d h.
Proof.
  unfold ready. rewrite list_lookup_alter.
  case_decide; [subst|done]. by destruct (h !! d).
Qed.

Lemma has_connectionId_alter_lastUsed now c d h :
  has_connectionId d (alter (set_lastUsed now) c h) = has_connectionId d h.
Proof.
  unfold has_connectionId. rewrite list_lookup_alter.
  case_decide; [subst|done]. by destruct (h !! d).
Qed.

Lemma delete_last c s : c ∉ s → JSSet.delete c (s ++ [c]) = s.
Proof.
  intros Hc. unfold JSSet.delete. rewrite filter_app.
  fold (JSSet.delete c s). rewrite (delete_absent c s Hc).
  rewrite filter_cons, decide_False by (intros ?; done). simpl. apply app_nil_r.
Qed.

Lemma add_absent c s : c ∉ s → JSSet.add c s = s ++ [c].
Proof. intros Hc. unfold JSSet.add. by rewrite (proj2 (has_false c s)). Qed.

(** X11. The available connections are reused first in, first out:
    [acquireConnection()] on a pool with available clients returns the
    one that has been available for the longest time and creates
    nothing, and the release of this client, healthy and ready, puts it
    behind the others and gives [busy] and the total back as they
    were. *)
Theorem reuse_is_first_in_first_out (w : World) (c : ref) (rest : list ref)
    (now : nat) :
  reachable w → isShuttingDown (this w) = false → available w = c :: rest →
  let w1 := acquireConnection now w in
  let w2 := releaseConnection (Some c) w1 in
  (available w1 = rest ∧ busy w1 = busy w ++ [c] ∧
   out w1 = out w ++ [AcquireReturned c] ∧ tasks w1 = tasks w ∧
   length (heap w1) = length (heap w)) ∧
  (healthy c (heap w) = true → ready c (heap w) = true →
     available w2 = rest ++ [c] ∧ busy w2 = busy w ∧ tasks w2 = tasks w ∧
     getTotalConnections w2 = getTotalConnections w).
Proof.
  intros Hreach Hshut Ha.
  destruct (reachable_NoDup w Hreach) as [Hnd _].
  pose proof (reachable_disjoint w Hreach) as Hdis.
  pose proof (reachable_tracked_registered w Hreach) as (Hreg & _).
  rewrite Ha in Hnd. apply NoDup_cons in Hnd as [Hc _].
  assert (c ∉ busy w) as Hb by (apply Hdis; rewrite Ha; by left).
  assert (has_connectionId c (heap w) = true) as Hid.
  { apply registered_has_connectionId, Hreg. left. rewrite Ha. by left. }
  assert (JSSet.delete c (c :: rest) = rest) as Hdel.
  { unfold JSSet.delete. rewrite filter_cons, decide_False by (intros ?; done).
    apply (delete_absent c rest Hc). }
  cbv zeta. unfold acquireConnection. rewrite Hshut. unfold_world.
  rewrite Ha. simpl. rewrite Hdel, (add_absent c (busy w) Hb).
  split.
  - split_and!; try done. by rewrite length_alter.
  - intros Hh Hr. unfold releaseConnection. unfold_world.
    rewrite has_connectionId_alter_lastUsed, Hid. simpl.
    rewrite (proj2 (has_true c (busy w ++ [c]))) by (apply elem_of_app; right; by left).
    simpl. rewrite healthy_alter_lastUsed, ready_alter_lastUsed, Hh, Hr. simpl.
    rewrite (delete_last c (busy w) Hb), (add_absent c rest Hc).
    split_and!; try done. unfold JSSet.size. rewrite length_app. simpl. lia.
Qed.

Lemma reuse_is_first_in_first_out_witness :
  reachable (world_after started) ∧
  isShuttingDown (this (world_after started)) = false ∧
  available (world_after started) = [0; 1] ∧
  available (releaseConnection (Some 0) (acquireConnection 5 (world_after started))) =
    [1; 0].
Proof.
  assert (Hr : reachable (world_after started)).
  { exists options_3_2, started. vm_compute. reflexivity. }
  assert (Hs : isShuttingDown (this (world_after started)) = false).
  { vm_compute. reflexivity. }
  assert (Ha : available (world_after started) = [0; 1]).
  { vm_compute. reflexivity. }
  split_and!; [exact Hr|exact Hs|exact Ha|].
  destruct (reuse_is_first_in_first_out _ 0 [1] 5 Hr Hs Ha) as [_ H].
  apply H; vm_compute; reflexivity.
Defined.

(** ** A second shutdown *)

Lemma set_shutting_down_again w :
  isShuttingDown (this w) = true → set_shutting_down w = w.
Proof. destruct w as [[] ? ? ?]. simpl. by intros ->. Qed.

(** X12. After [shutdown()] the sets stay empty as long as no
    [connect()] fulfils, provided no [acquireConnection()] of strategy 2
    was about to resume when it was called.  A [shutdown()] called again
    in such a state, whatever else has happened since the first (its
    [quit()] calls settled or not), closes nothing and counts nothing: it
    only awaits an empty list of promises, and so it can resume at the
    next turn. *)
Theorem second_shutdown_waits_for_nothing (w w1 : World) (es : list event) :
  no_grow_in_flight w → Forall (λ e, is_connect_ok e = false) es →
  run es (shutdown w) = Some w1 →
  shutdown w1 = spawn (TShutdown []) w1 ∧
  step (ShutdownSettle (length (tasks w1))) (shutdown w1) =
    Some (set_task (length (tasks w1)) TDone (shutdown w1)).
Proof.
  intros Hg Hes Hrun.
  destruct (drained_run es (shutdown w) w1 Hes (shutdown_available w)
              (shutdown_busy w) (shutdown_no_grow w Hg) Hrun) as [Ha Hb].
  pose proof (isShuttingDown_run _ _ _ Hrun (shutdown_isShuttingDown w)) as Hs.
  assert (shutdown w1 = spawn (TShutdown []) w1) as Heq.
  { unfold shutdown. rewrite (set_shutting_down_again _ Hs).
    cbv zeta. by rewrite Ha, Hb. }
  split; [done|]. rewrite Heq. simpl.
  by rewrite lookup_app_r, Nat.sub_diag by done.
Qed.

Lemma second_shutdown_waits_for_nothing_witness :
  no_grow_in_flight (world_after (started ++ [Acquire 2])) ∧
  tasks (world_after (started ++ [Acquire 2; Shutdown; QuitOk 1])) !! 2 =
    Some (TQuit 0) ∧
  shutdown (world_after (started ++ [Acquire 2; Shutdown; QuitOk 1])) =
    spawn (TShutdown []) (world_after (started ++ [Acquire 2; Shutdown; QuitOk 1])).
Proof.
  assert (Hg : no_grow_in_flight (world_after (started ++ [Acquire 2]))).
  { intros [|[|i]] c; vm_compute; congruence. }
  assert (Hq : tasks (world_after (started ++ [Acquire 2; Shutdown; QuitOk 1])) !! 2 =
                 Some (TQuit 0)).
  { vm_compute. reflexivity. }
  split_and!; [exact Hg|exact Hq|].
  refine (proj1 (second_shutdown_waits_for_nothing
            (world_after (started ++ [Acquire 2])) _ [QuitOk 1] Hg _ _)).
  - repeat constructor.
  - vm_compute. reflexivity.
Defined.

(** ** The sweep of a health check *)

Lemma filter_ext_in {A} (P Q : A → Prop) `{∀ x, Decision (P x), ∀ x, Decision (Q x)}
    (l : list A) :
  (∀ x, x ∈ l → (P x ↔ Q x)) → filter P l = filter Q l.
Proof.
  induction l as [|x l IH]; intros Hpq; [done|].
  rewrite !filter_cons, IH by (intros; apply Hpq; by right).
  pose proof (Hpq x ltac:(by left)).
  repeat case_decide; first [done | tauto].
Qed.

Lemma sweep_fold_available_eq l w :
  available (foldl evict w l) =
    filter (λ y, y ∈ l → healthy y (heap w) = true) (available w).
Proof.
  revert w. induction l as [|d l IH]; intros w; simpl.
  - symmetry. transitivity (filter (λ _, True) (available w)).
    + apply list_filter_iff. intros x. split; [done|]. by intros _ ?%elem_of_nil.
    + induction (available w) as [|x s IHs]; [done|].
      by rewrite filter_cons, decide_True, IHs.
  - rewrite IH, evict_heap. unfold evict. destruct (healthy d (heap w)) eqn:Hd.
    + apply list_filter_iff. intros x. rewrite elem_of_cons.
      split; [intros Hx [->|?]; auto | intros Hx ?; apply Hx; by right].
    + rewrite destroy_available. unfold JSSet.delete. rewrite list_filter_filter.
      apply list_filter_iff. intros x. rewrite elem_of_cons.
      split; [intros [? ?] [->|?]; auto; done|].
      intros Hx. split; [auto|]. intros ->. rewrite Hx in Hd; [done|by left].
Qed.

Lemma sweep_fold_busy_eq l w :
  (∀ c, c ∈ l → c ∉ busy w) → busy (foldl evict w l) = busy w.
Proof.
  revert w. induction l as [|d l IH]; intros w Hl; simpl; [done|].
  assert (busy (evict w d) = busy w) as Hb.
  { unfold evict. case_match; [done|]. rewrite destroy_busy.
    apply delete_absent, Hl. by left. }
  rewrite IH, Hb; [done|]. intros c Hc. rewrite Hb. apply Hl. by right.
Qed.

(** X13. When the pings of a health check have settled, the available
    set becomes its healthy part, in the same order, and the busy set is
    left as it is: no healthy available client and no busy client is
    taken out. *)
Theorem health_check_keeps_healthy_and_busy (w w' : World) (i : nat) :
  reachable w → step (HealthSettle i) w = Some w' →
  available w' = filter (λ c, healthy c (heap w) = true) (available w) ∧
  busy w' = busy w ∧ heap w' = heap w ∧ out w' = out w ∧
  tasks w' !! i = Some TDone.
Proof.
  intros Hreach Hstep. pose proof (reachable_disjoint w Hreach) as Hdis.
  simpl in Hstep. destruct (tasks w !! i) as [[]|] eqn:Hi; try done.
  destruct pings; [|done]. injection Hstep as <-.
  unfold healthCheck_sweep. rewrite sweep_fold_available_eq, sweep_fold_busy_eq,
    sweep_fold_heap, sweep_fold_out by (intros c Hc; by apply Hdis).
  simpl. split_and!; try done.
  - apply filter_ext_in. intros x Hx. split; auto.
  - rewrite sweep_fold_tasks. simpl. apply lookup_app_l_Some. rewrite list_lookup_insert.
    rewrite decide_True; [done|]. split; [done|]. by eapply lookup_lt_Some.
Qed.

Lemma health_check_keeps_healthy_and_busy_witness :
  reachable (world_after (started ++ [HealthCheck; PingFail 1 0; PingOk 1 1])) ∧
  available (world_after (started ++ [HealthCheck; PingFail 1 0; PingOk 1 1;
                                      HealthSettle 1])) =
    filter (λ c, healthy c (heap (world_after (started ++ [HealthCheck; PingFail 1 0;
                                                           PingOk 1 1]))) = true)
      (available (world_after (started ++ [HealthCheck; PingFail 1 0; PingOk 1 1]))).
Proof.
  assert (Hr : reachable (world_after (started ++ [HealthCheck; PingFail 1 0; PingOk 1 1]))).
  { exists options_3_2, (started ++ [HealthCheck; PingFail 1 0; PingOk 1 1]).
    vm_compute. reflexivity. }
  split; [exact Hr|].
  refine (proj1 (health_check_keeps_healthy_and_busy _ _ 1 Hr _)).
  vm_compute. reflexivity.
Defined.

(** ** An error before the connection is made *)

(** X14. The ['error'] listener is registered before [connect()] is
    called.  An error of a client that is still connecting is counted,
    marks the client as not healthy and may start a replacement, but it
    does not cancel the creation: when [connect()] fulfils, the client
    is marked healthy, gets its identifier, is counted as created and is
    made available like any other. *)
Theorem error_while_connecting_is_forgotten (w w1 w2 : World) (c : ref)
    (cl : Client) (k : awaiter) (now : nat) :
  heap w !! c = Some cl → connecting cl = Some k →
  step (ClientError c) w = Some w1 → step (ConnectOk c now) w1 = Some w2 →
  (healthy c (heap w1) = false ∧ (c ∉ available w1) ∧
   errors (counters w1) = S (errors (counters w)) ∧
   length (heap w1) =
     length (heap w) +
       (if (Z.of_nat (total_without c w) <? minConnections (this w))%Z then 1 else 0)) ∧
  (c ∈ available w2 ∧ healthy c (heap w2) = true ∧
   has_connectionId c (heap w2) = true ∧
   created (counters w2) = S (created (counters w1))).
Proof.
  intros Hc Hk Herr Hok.
  simpl in Herr. case_bool_decide; [|done]. injection Herr as <-.
  pose proof (on_error_client c w cl Hc) as Hc1.
  split.
  - split_and!.
    + unfold healthy. by rewrite Hc1.
    + rewrite on_error_available. apply not_in_delete.
    + apply on_error_errors.
    + rewrite on_error_heap, length_app, length_alter. by case_match.
  - simpl in Hok. rewrite Hc1 in Hok. simpl in Hok. rewrite Hk in Hok.
    simpl in Hok. injection Hok as <-.
    assert (∀ w0, available (created_for k c w0) = available w0 ∧
                  heap (created_for k c w0) = heap w0 ∧
                  counters (created_for k c w0) = counters w0) as Hfor.
    { intros w0. unfold created_for. destruct k; [|done|done].
      by repeat case_match. }
    destruct (Hfor (createConnection_connected c now
                      (connect_settled true true c (on_error c w)))) as (-> & -> & ->).
    unfold_world. rewrite list_alter_alter_eq. split_and!.
    + apply in_add. by left.
    + unfold healthy. by rewrite (lookup_alter_Some _ _ _ _ _ Hc1), decide_True.
    + unfold has_connectionId.
      by rewrite (lookup_alter_Some _ _ _ _ _ Hc1), decide_True.
    + done.
Qed.

Lemma error_while_connecting_is_forgotten_witness :
  heap (constructor options_3_2) !! 0 =
    Some (mkClient None None None false true (Some KInit)) ∧
  0 ∈ available (world_after [ClientError 0; ConnectOk 0 1]) ∧
  healthy 0 (heap (world_after [ClientError 0; ConnectOk 0 1])) = true.
Proof.
  assert (Hc : heap (constructor options_3_2) !! 0 =
                 Some (mkClient None None None false true (Some KInit))).
  { vm_compute. reflexivity. }
  split; [exact Hc|].
  destruct (error_while_connecting_is_forgotten
              (constructor options_3_2) (world_after [ClientError 0])
              (world_after [ClientError 0; ConnectOk 0 1]) 0 _ KInit 1 Hc eq_refl)
    as [_ (H1 & H2 & _)]; [vm_compute; reflexivity|vm_compute; reflexivity|].
  split; [exact H1|exact H2].
Defined.

(** ** The total and the counter of creations *)

Lemma step_identified e w w' :
  step e w = Some w' →
  identified_count w' ≤ identified_count w + (if is_connect_ok e then 1 else 0).
Proof.
  intros Hstep. unfold identified_count. step_cases e Hstep.
  all: rewrite ?shutdown_heap, ?sweep_heap.
  all: unfold_world.
  all: rewrite ?destroy_heap.
  all: unfold_world.
  all: rewrite ?list_alter_alter_eq.
  all: rewrite ?count_app; simpl.
  all: try (rewrite count_alter_same by done).
  all: try lia.
  all: match goal with
       | H : heap ?w !! ?c = Some ?cl |- context [alter ?f ?c (heap ?w)] =>
           pose proof (count_alter identified f c (heap w) cl H) as Hcount
       end.
  all: simpl in Hcount.
  all: repeat case_match; lia.
Qed.

Lemma length_delete_NoDup n (l : list ref) :
  NoDup l → length l ≤ S (length (JSSet.delete n l)).
Proof.
  induction 1 as [|a l Ha Hnd IH]; simpl; [lia|].
  unfold JSSet.delete in *. rewrite filter_cons. case_decide; simpl; [lia|].
  assert (a = n) as -> by (destruct (decide (a = n)); [done|tauto]).
  fold (JSSet.delete n l). rewrite (delete_absent n l Ha). lia.
Qed.

Lemma tracked_le_count (p : Client → bool) (h : list Client) :
  ∀ l : list ref, NoDup l →
    (∀ c, c ∈ l → ∃ cl, h !! c = Some cl ∧ p cl = true) →
    length l ≤ length (filter (λ cl, p cl = true) h).
Proof.
  induction h as [|x h IH] using rev_ind; intros l Hnd Hl.
  - destruct l as [|c l]; [done|]. destruct (Hl c) as (? & ? & _); [by left|done].
  - rewrite count_app.
    assert (length (JSSet.delete (length h) l) ≤ length (filter (λ cl, p cl = true) h))
      as Hrest.
    { apply IH; [by apply NoDup_delete|].
      intros c [Hne Hc]%in_delete. destruct (Hl c Hc) as (cl & Hcl & Hp).
      exists cl. split; [|done].
      apply lookup_app_Some in Hcl as [?|[? Hcl]]; [done|].
      apply list_lookup_singleton_Some in Hcl as [? _]. lia. }
    destruct (decide (length h ∈ l)) as [Hin|Hout].
    + destruct (Hl _ Hin) as (cl & Hcl & Hp).
      rewrite lookup_app_r, Nat.sub_diag in Hcl by done. simplify_eq/=.
      rewrite filter_cons, decide_True by done. simpl.
      pose proof (length_delete_NoDup (length h) l Hnd). lia.
    + rewrite (delete_absent _ _ Hout) in Hrest. lia.
Qed.

Lemma identified_constructor options : identified_count (constructor options) = 0.
Proof.
  unfold identified_count. rewrite constructor_heap.
  induction (Z.to_nat _) as [|n IH]; [done|]. cbn [replicate].
  by rewrite filter_cons, decide_False.
Qed.

Lemma reachable_identified w : reachable w → identified_count w ≤ created (counters w).
Proof.
  intros (o & es & Hrun).
  eapply (run_invariant (λ w, identified_count w ≤ created (counters w)));
    [| |exact Hrun].
  - intros e w1 w2 Hle Hstep.
    pose proof (step_identified _ _ _ Hstep). pose proof (step_created _ _ _ Hstep). lia.
  - rewrite identified_constructor. lia.
Qed.

(** X15. The pool never holds more connections than it has created:
    [getTotalConnections()] is at most the counter [created]. *)
Theorem total_at_most_created (w : World) :
  reachable w → getTotalConnections w ≤ created (counters w).
Proof.
  intros Hreach.
  destruct (reachable_NoDup w Hreach) as [Hna Hnb].
  pose proof (reachable_disjoint w Hreach) as Hdis.
  pose proof (reachable_tracked_registered w Hreach) as (Hreg & _).
  pose proof (reachable_identified w Hreach) as Hle.
  assert (length (available w ++ busy w) ≤ identified_count w) as Htr.
  { apply tracked_le_count.
    - apply NoDup_app. split_and!; [done| |done]. intros c Ha Hb. by apply (Hdis c).
    - intros c Hc%elem_of_app. destruct (Hreg c Hc) as (cl & Hcl & _ & Hid).
      exists cl. split; [done|]. unfold identified. by rewrite Hid. }
  rewrite length_app in Htr. unfold getTotalConnections, JSSet.size. lia.
Qed.

Lemma total_at_most_created_witness :
  reachable (world_after (started ++ [Acquire 2; ClientError 0])) ∧
  getTotalConnections (world_after (started ++ [Acquire 2; ClientError 0])) ≤
    created (counters (world_after (started ++ [Acquire 2; ClientError 0]))).
Proof.
  assert (Hr : reachable (world_after (started ++ [Acquire 2; ClientError 0]))).
  { exists options_3_2, (started ++ [Acquire 2; ClientError 0]). vm_compute. reflexivity. }
  split; [exact Hr|]. exact (total_at_most_created _ Hr).
Defined.

(** ** The two sets *)

(** X16. No connection is in both sets, and every connection in one of
    them has completed its creation: it is an object of the heap, its
    [connect()] has fulfilled and its identifier is set. *)
Theorem tracked_connections_are_created_and_in_one_set (w : World) (c : ref) :
  reachable w → c ∈ available w ∨ c ∈ busy w →
  ¬ (c ∈ available w ∧ c ∈ busy w) ∧
  settled c w ∧ has_connectionId c (heap w) = true ∧ c < length (heap w).
Proof.
  intros Hreach Hc.
  pose proof (reachable_disjoint w Hreach) as Hdis.
  pose proof (reachable_tracked_registered w Hreach) as (Hreg & _).
  pose proof (Hreg c Hc) as Hr. split_and!.
  - intros [Ha Hb]. by apply (Hdis c).
  - by apply registered_settled.
  - by apply registered_has_connectionId.
  - destruct Hr as (cl & Hcl & _). by eapply lookup_lt_Some.
Qed.

Lemma tracked_connections_are_created_and_in_one_set_witness :
  reachable (world_after (started ++ [Acquire 2])) ∧
  (0 ∈ available (world_after (started ++ [Acquire 2])) ∨
   0 ∈ busy (world_after (started ++ [Acquire 2]))) ∧
  has_connectionId 0 (heap (world_after (started ++ [Acquire 2]))) = true.
Proof.
  assert (Hr : reachable (world_after (started ++ [Acquire 2]))).
  { exists options_3_2, (started ++ [Acquire 2]). vm_compute. reflexivity. }
  assert (Hb : 0 ∈ available (world_after (started ++ [Acquire 2])) ∨
               0 ∈ busy (world_after (started ++ [Acquire 2]))).
  { right. vm_compute. left. }
  split_and!; [exact Hr|exact Hb|].
  exact (proj1 (proj2 (proj2
    (tracked_connections_are_created_and_in_one_set _ 0 Hr Hb)))).
Defined.

(** ** What the counters count *)

Lemma step_errors e w w' :
  step e w = Some w' →
  errors (counters w') = errors (counters w) + (if is_client_error e then 1 else 0).
Proof.
  intros Hstep. destruct (decide (is_client_error e = true)) as [He|He].
  - destruct e; try done. simpl in Hstep. case_bool_decide; [|done].
    injection Hstep as <-. rewrite on_error_errors. simpl. lia.
  - step_cases e Hstep.
    all: rewrite ?shutdown_counters, ?sweep_counters.
    all: unfold_world.
    all: rewrite ?destroy_counters.
    all: unfold_world.
    all: try done.
    all: repeat case_match; simpl.
    all: try lia.
Qed.

(** X17. [created] counts the [connect()] calls that fulfilled, whether
    or not the connection was ever handed out, and [errors] counts the
    ['error'] events of the clients and nothing else: a creation, a ping
    or a [quit()] that fails is logged and not counted. *)
Theorem created_and_errors_count_events (es : list event) (w w' : World) :
  run es w = Some w' →
  created (counters w') = created (counters w) + count_events is_connect_ok es ∧
  errors (counters w') = errors (counters w) + count_events is_client_error es.
Proof.
  revert w. induction es as [|e es IH]; intros w; simpl.
  - intros [= <-]. unfold count_events. simpl. lia.
  - destruct (step e w) as [w1|] eqn:He; simpl; [|done]. intros Hrun.
    destruct (IH w1 Hrun) as [-> ->].
    rewrite (step_created _ _ _ He), (step_errors _ _ _ He).
    unfold count_events. rewrite !filter_cons.
    destruct (is_connect_ok e), (is_client_error e); simpl; lia.
Qed.

Lemma created_and_errors_count_events_witness :
  run [ConnectFail 0; ConnectOk 1 1; InitSettle; HealthCheck; PingFail 1 1;
       ClientError 1]
      (constructor options_3_2) =
    Some (world_after [ConnectFail 0; ConnectOk 1 1; InitSettle; HealthCheck;
                       PingFail 1 1; ClientError 1]) ∧
  errors (counters (world_after [ConnectFail 0; ConnectOk 1 1; InitSettle;
                                 HealthCheck; PingFail 1 1; ClientError 1])) = 1.
Proof.
  assert (Hr : run [ConnectFail 0; ConnectOk 1 1; InitSettle; HealthCheck;
                    PingFail 1 1; ClientError 1] (constructor options_3_2) =
    Some (world_after [ConnectFail 0; ConnectOk 1 1; InitSettle; HealthCheck;
                       PingFail 1 1; ClientError 1])).
  { vm_compute. reflexivity. }
  split; [exact Hr|].
  exact (proj2 (created_and_errors_count_events _ _ _ Hr)).
Defined.

(** ** The options of retrying *)

Section Retry.
Variables (rd mr : Z).

Lemma destroy_set_retry c w :
  destroyConnection c (set_retry rd mr w) =
    (set_retry rd mr (destroyConnection c w).1, (destroyConnection c w).2).
Proof. unfold destroyConnection. simpl. by case_match. Qed.

Lemma evict_set_retry w c : evict (set_retry rd mr w) c = set_retry rd mr (evict w c).
Proof.
  unfold evict. simpl. case_match; [done|]. by rewrite destroy_set_retry.
Qed.

Lemma sweep_fold_set_retry l w :
  foldl evict (set_retry rd mr w) l = set_retry rd mr (foldl evict w l).
Proof.
  revert w. induction l as [|c l IH]; intros w; simpl; [done|].
  by rewrite evict_set_retry, IH.
Qed.

Lemma destroy_fold_set_retry l acc :
  foldl destroy_next (set_retry rd mr acc.1, acc.2) l =
    (set_retry rd mr (foldl destroy_next acc l).1, (foldl destroy_next acc l).2).
Proof.
  revert acc. induction l as [|c l IH]; intros [w qs]; simpl; [done|].
  unfold destroy_next at 2 4 6. simpl. rewrite destroy_set_retry. simpl.
  apply (IH ((destroyConnection c w).1, qs ++ option_list (destroyConnection c w).2)).
Qed.

Lemma shutdown_set_retry w : shutdown (set_retry rd mr w) = set_retry rd mr (shutdown w).
Proof.
  unfold shutdown, destroy_all. cbv zeta.
  change (set_shutting_down (set_retry rd mr w))
    with (set_retry rd mr (set_shutting_down w)).
  change (available (set_retry rd mr (set_shutting_down w)))
    with (available (set_shutting_down w)).
  change (busy (set_retry rd mr (set_shutting_down w)))
    with (busy (set_shutting_down w)).
  by rewrite (destroy_fold_set_retry _ (set_shutting_down w, [])).
Qed.

Lemma sweep_set_retry w :
  healthCheck_sweep (set_retry rd mr w) = set_retry rd mr (healthCheck_sweep w).
Proof. unfold healthCheck_sweep. apply sweep_fold_set_retry. Qed.

Lemma acquire_set_retry now w :
  acquireConnection now (set_retry rd mr w) = set_retry rd mr (acquireConnection now w).
Proof.
  destruct w as [[] h t o]. unfold acquireConnection, set_retry. unfold_world.
  by repeat case_match.
Qed.

Lemma release_set_retry client w :
  releaseConnection client (set_retry rd mr w) =
    set_retry rd mr (releaseConnection client w).
Proof.
  destruct client as [c|]; [|done]. unfold releaseConnection.
  change (heap (set_retry rd mr w)) with (heap w).
  destruct (negb (has_connectionId c (heap w))); [done|]. cbv zeta.
  change (busy (incr_released (set_retry rd mr w))) with (busy w).
  change (busy (incr_released w)) with (busy w).
  destruct (JSSet.has c (busy w)); [|by destruct w as [[] h t o]].
  change (heap (with_busy (JSSet.delete c) (incr_released (set_retry rd mr w))))
    with (heap w).
  change (heap (with_busy (JSSet.delete c) (incr_released w))) with (heap w).
  destruct (healthy c (heap w) && ready c (heap w)); [by destruct w as [[] h t o]|].
  exact (f_equal fst (destroy_set_retry c (with_busy (JSSet.delete c) (incr_released w)))).
Qed.

Lemma on_error_set_retry c w :
  on_error c (set_retry rd mr w) = set_retry rd mr (on_error c w).
Proof.
  rewrite !on_error_eq. cbv zeta.
  change (total_without c (set_retry rd mr w)) with (total_without c w).
  change (minConnections (this (set_retry rd mr w))) with (minConnections (this w)).
  by case_match.
Qed.

Lemma step_set_retry e w :
  step e (set_retry rd mr w) = set_retry rd mr <$> step e w.
Proof.
  destruct e.
  all: try match goal with
       | |- step (ShutdownSettle ?i) _ = _ =>
           unfold step; change (tasks (set_retry rd mr w)) with (tasks w);
           destruct (tasks w !! i) as [[| | | | | | |qs|]|]; try done;
           change (all_done qs (set_retry rd mr w)) with (all_done qs w);
           by destruct (all_done qs w)
       end.
  all: simpl.
  all: rewrite ?shutdown_set_retry, ?acquire_set_retry, ?release_set_retry,
         ?on_error_set_retry.
  all: try done.
  all: try (destruct (heap w !! c) as [cl|]; [|done]; simpl;
            destruct (connecting cl) as [[]|]; simpl; [| | |done];
            unfold created_for, create_failed_for; simpl; by repeat case_match).
  all: try (by repeat case_match).
  all: repeat case_match; try done; simpl.
  all: change (set_task ?i ?t (set_retry rd mr w)) with (set_retry rd mr (set_task i t w)).
  all: by rewrite sweep_set_retry.
Qed.

Lemma run_set_retry es w :
  run es (set_retry rd mr w) = set_retry rd mr <$> run es w.
Proof.
  revert w. induction es as [|e es IH]; intros w; simpl; [done|].
  rewrite step_set_retry. destruct (step e w) as [w1|]; simpl; [apply IH|done].
Qed.
End Retry.

Lemma iter_create_set_retry rd mr k n w :
  Nat.iter n (createConnection k) (set_retry rd mr w) =
    set_retry rd mr (Nat.iter n (createConnection k) w).
Proof. induction n as [|n IH]; [done|]. simpl. by rewrite IH. Qed.

Lemma constructor_set_retry rd mr o :
  constructor (with_retry_options rd mr o) =
    set_retry (js_or rd 1000) (js_or mr 5) (constructor o).
Proof.
  unfold constructor, initializePool. simpl.
  set (n := Z.to_nat (js_or (opt_minConnections o) 2)).
  match goal with
  | |- spawn _ (Nat.iter n _ ?w1) = set_retry ?a ?b (spawn _ (Nat.iter n _ ?w0)) =>
      change w1 with (set_retry a b w0)
  end.
  by rewrite iter_create_set_retry.
Qed.

(** X18. The options [retryDelay] and [maxRetries] are stored by the
    constructor and read by nothing: two pools whose options differ in
    these two only go through the same states, the two fields apart,
    under every run of events. *)
Theorem retry_options_are_never_read (o : Options) (rd mr : option Z)
    (es : list event) :
  run es (constructor (with_retry_options rd mr o)) =
    set_retry (js_or rd 1000) (js_or mr 5) <$> run es (constructor o) ∧
  ∀ w, run es (constructor o) = Some w →
    ∃ w', run es (constructor (with_retry_options rd mr o)) = Some w' ∧
          out w' = out w ∧ available w' = available w ∧ busy w' = busy w ∧
          heap w' = heap w ∧ tasks w' = tasks w ∧ counters w' = counters w ∧
          isShuttingDown (this w') = isShuttingDown (this w).
Proof.
  assert (run es (constructor (with_retry_options rd mr o)) =
            set_retry (js_or rd 1000) (js_or mr 5) <$> run es (constructor o)) as Hrun.
  { by rewrite constructor_set_retry, run_set_retry. }
  split; [done|]. intros w Hw. rewrite Hrun, Hw. simpl. eexists. split; [done|].
  by split_and!.
Qed.

(** * The callers of the pool *)

Lemma used_app l k : used (l ++ k) = used l ++ used k.
Proof. apply omap_app. Qed.

Lemma released_clients_app l k :
  released_clients (l ++ k) = released_clients l ++ released_clients k.
Proof. apply omap_app. Qed.

Lemma acquisitions_app l k : acquisitions (l ++ k) = acquisitions l + acquisitions k.
Proof. unfold acquisitions. by rewrite filter_app, length_app. Qed.

Lemma safeOperation_from_spec {R} (retries : Z) (answers : list (turn R)) :
  ∀ attempt,
    let r := safeOperation_from retries attempt answers in
    released_clients r.1 = used r.1 ∧
    attempt + acquisitions r.1 ≤ Nat.max attempt (Z.to_nat retries) ∧
    (∀ n, r.2 = SafeThrows n →
       (Z.of_nat n = retries ∧ attempt + acquisitions r.1 = n)) ∧
    (∀ n, r.2 = SafeTypeError n →
       attempt < n ∧ (Z.of_nat n ≤ retries)%Z ∧ attempt + acquisitions r.1 = n ∧
       ∃ a, answers !! (n - S attempt) = Some a ∧ message_throws_in a = true) ∧
    (∀ x, r.2 = SafeReturns (Some x) → ∃ c, OperationFulfils c x ∈ answers).
Proof.
  assert (∀ o, acquisitions (try_calls o) = 1 ∧ acquisitions (finally_calls o) = 0 ∧
               released_clients (try_calls o) = [] ∧ used (finally_calls o) = [] ∧
               used (try_calls o) = released_clients (finally_calls o)) as Hcalls.
  { intros [c|]; done. }
  assert (∀ a : turn R, ∀ attempt rest,
    let now := try_calls (client_of a) ++ [CallConsoleError attempt] ++
                 finally_calls (client_of a) in
    let short := try_calls (client_of a) ++ finally_calls (client_of a) in
    let later := try_calls (client_of a) ++
                   [CallConsoleError attempt; CallSleep (1000 * attempt)] ++
                   finally_calls (client_of a) ++ rest in
    released_clients now = used now ∧ acquisitions now = 1 ∧
    released_clients short = used short ∧ acquisitions short = 1 ∧
    released_clients later = released_clients (finally_calls (client_of a)) ++
                             released_clients rest ∧
    used later = used (try_calls (client_of a)) ++ used rest ∧
    acquisitions later = S (acquisitions rest)) as Hturn.
  { intros a attempt rest. destruct (client_of a) as [c|]; done. }
  induction answers as [|a answers IH]; intros attempt; cbn [safeOperation_from].
  - destruct (Z.ltb_spec (Z.of_nat attempt) retries); simpl;
      (split_and!; [done|unfold acquisitions; simpl; lia|done|done|done]).
  - destruct (Z.ltb_spec (Z.of_nat attempt) retries) as [Hlt|Hge];
      [|simpl; split_and!; [done|unfold acquisitions; simpl; lia|done|done|done]].
    destruct (IH (S attempt)) as (IH1 & IH2 & IH3 & IH4 & IH5).
    pose proof (Nat2Z.inj_succ attempt) as Hsucc.
    destruct (Hturn a (S attempt) (safeOperation_from retries (S attempt) answers).1)
      as (T1 & T2 & S1 & S2 & T3 & T4 & T5).
    assert (∀ y, (∃ c, OperationFulfils c y ∈ answers) →
                 ∃ c, OperationFulfils c y ∈ a :: answers) as Hin.
    { intros y [c ?]. exists c. by right. }
    destruct (Hcalls (client_of a)) as (_ & _ & _ & _ & Hua).
    remember (Z.of_nat (S attempt)) as next.
    destruct a as [b|c b|c x]; cbn [message_throws_in].
    + destruct b; cbn [fst snd].
      * rewrite S1, S2. split_and!; [done|lia|done| |done].
        intros n [= <-]. split_and!; [lia|lia|lia|].
        rewrite Nat.sub_diag. by eexists.
      * destruct (Z.leb_spec retries next) as [Hle|Hgt]; cbn [fst snd].
        -- rewrite T1, T2. split_and!; [done|lia| |done|done]. intros n [= <-]. lia.
        -- rewrite T3, T4, T5, IH1, Hua.
           split_and!; [done|lia| | |auto].
           ++ intros n Hn. destruct (IH3 n Hn). lia.
           ++ intros n Hn. destruct (IH4 n Hn) as (? & ? & ? & a & Ha & Hm).
              split_and!; [lia|lia|lia|]. exists a. split; [|done].
              replace (n - S attempt) with (S (n - S (S attempt))) by lia. done.
    + destruct b; cbn [fst snd].
      * rewrite S1, S2. split_and!; [done|lia|done| |done].
        intros n [= <-]. split_and!; [lia|lia|lia|].
        rewrite Nat.sub_diag. by eexists.
      * destruct (Z.leb_spec retries next) as [Hle|Hgt]; cbn [fst snd].
        -- rewrite T1, T2. split_and!; [done|lia| |done|done]. intros n [= <-]. lia.
        -- rewrite T3, T4, T5, IH1, Hua.
           split_and!; [done|lia| | |auto].
           ++ intros n Hn. destruct (IH3 n Hn). lia.
           ++ intros n Hn. destruct (IH4 n Hn) as (? & ? & ? & a & Ha & Hm).
              split_and!; [lia|lia|lia|]. exists a. split; [|done].
              replace (n - S attempt) with (S (n - S (S attempt))) by lia. done.
    + cbn [fst snd]. split_and!; [done|unfold acquisitions; simpl; lia|done|done|].
      intros y [= <-]. exists c. by left.
Qed.


Lemma batch_loop_spec {R} (client : ref) (operations : list (option R)) :
  ∀ results,
    let r := batch_loop client operations results in
    released_clients r.1 = [] ∧ acquisitions r.1 = 0 ∧
    (∀ c, c ∈ used r.1 → c = client) ∧
    length (used r.1) ≤ length operations ∧
    (∀ rs, r.2 = Returns rs →
       rs = results ++ omap id operations ∧ Forall is_Some operations ∧
       length (used r.1) = length operations) ∧
    (∀ n, r.2 = Throws n →
       length results < n ∧
       operations !! (n - S (length results)) = Some None ∧
       length (used r.1) = n - length results) ∧
    r.2 ≠ Awaits.
Proof.
  induction operations as [|[x|] operations IH]; intros results; simpl.
  - split_and!; try done.
    + by intros c ?%elem_of_nil.
    + intros rs [= <-]. by rewrite app_nil_r.
  - destruct (IH (results ++ [x])) as (IH1 & IH2 & IH3 & IH4 & IH5 & IH6 & IH7).
    rewrite length_app in IH6. simpl in IH6.
    split_and!; try done.
    + intros c [->|?]%elem_of_cons; auto.
    + simpl. lia.
    + intros rs Hrs. destruct (IH5 rs Hrs) as (-> & ? & ?).
      rewrite <- app_assoc. split_and!; [done|by constructor|simpl; lia].
    + intros n Hn. destruct (IH6 n Hn) as (? & Hop & ?).
      split_and!; [lia| |simpl; lia].
      replace (n - S (length results)) with (S (n - S (length results + 1))) by lia.
      done.
  - split_and!; try done.
    + intros c [->|?%elem_of_nil]%elem_of_cons; done.
    + simpl. lia.
    + intros n [= <-]. split_and!; [lia| |simpl; lia].
      by rewrite Nat.sub_diag.
Qed.

(** X20. [batchOperations] acquires once, gives the one client to the
    operations in order up to the first that rejects, and releases it
    once, as its last call, whether the operations fulfil or not.  When
    [acquireConnection()] rejects, it calls no operation and releases
    nothing. *)
Theorem batchOperations_releases_once {R} (acquired : option ref)
    (operations : list (option R)) :
  acquisitions (batchOperations acquired operations).1 = 1 ∧
  released_clients (batchOperations acquired operations).1 = option_list acquired ∧
  (∀ c, c ∈ used (batchOperations acquired operations).1 → acquired = Some c) ∧
  (∀ c, acquired = Some c →
     last (batchOperations acquired operations).1 = Some (CallRelease c)) ∧
  (∀ rs, (batchOperations acquired operations).2 = Returns rs →
     is_Some acquired ∧ operations = Some <$> rs ∧
     length (used (batchOperations acquired operations).1) = length operations) ∧
  (∀ n, (batchOperations acquired operations).2 = Throws n →
     match n with
     | 0 => acquired = None ∧ (batchOperations acquired operations).1 = [CallAcquire]
     | S i => is_Some acquired ∧ operations !! i = Some None ∧
              length (used (batchOperations acquired operations).1) = n
     end).
Proof.
  destruct acquired as [c|]; unfold batchOperations; cbv zeta; cbn [fst snd].
  - destruct (batch_loop_spec c operations []) as (H1 & H2 & H3 & H4 & H5 & H6 & H7).
    cbv zeta in *. simpl length in *.
    assert (∀ l, acquisitions (CallAcquire :: l ++ [CallRelease c]) = S (acquisitions l) ∧
                 released_clients (CallAcquire :: l ++ [CallRelease c]) =
                   released_clients l ++ [c] ∧
                 used (CallAcquire :: l ++ [CallRelease c]) = used l ∧
                 last (CallAcquire :: l ++ [CallRelease c]) = Some (CallRelease c))
      as Hshape.
    { intros l. split_and!.
      - change (CallAcquire :: l ++ [CallRelease c])
          with ([CallAcquire] ++ l ++ [CallRelease c]).
        rewrite !acquisitions_app. unfold acquisitions at 1 3. simpl. lia.
      - change (CallAcquire :: l ++ [CallRelease c])
          with ([CallAcquire] ++ l ++ [CallRelease c]).
        by rewrite !released_clients_app.
      - change (CallAcquire :: l ++ [CallRelease c])
          with ([CallAcquire] ++ l ++ [CallRelease c]).
        rewrite !used_app. simpl. by rewrite app_nil_r.
      - by rewrite app_comm_cons, last_snoc. }
    destruct (Hshape (batch_loop c operations []).1) as (-> & -> & -> & Hlast).
    split_and!.
    + lia.
    + by rewrite H1.
    + by intros d ->%H3.
    + by intros d [= <-].
    + intros rs Hrs. destruct (H5 rs Hrs) as (-> & Hall & Hlen).
      split_and!; [by eexists| |].
      * clear -Hall. induction Hall as [|[x|] l [y Hy] _ IH]; simplify_eq/=; [done|].
        by rewrite <- IH.
      * rewrite ?used_app. simpl. by rewrite ?app_nil_r.
    + intros n Hn. destruct (H6 n Hn) as (Hpos & Hop & Hlen).
      destruct n as [|i]; [lia|].
      rewrite Nat.sub_0_r in Hlen. simpl in Hop. rewrite Nat.sub_0_r in Hop.
      split_and!; [by eexists|done|].
      rewrite ?used_app. simpl. by rewrite ?app_nil_r.
  - split_and!; try done.
    + intros c ?%elem_of_nil. done.
    + intros n [= <-]. done.
Qed.
